(** * AdvDrop: the InfoDrop attack of [infod_sample.py]

    A shallow embedding of the class [InfoDrop] (constructor and [forward])
    and the properties of its optimisation loop, followed by the
    normalisation layer [Normalize] and by a second reading of [forward]
    on references ([Module Refs]), which says who may write which tensor.

    Conventions of the embedding.
    - Python integers are [Z]; tensor elements and Python floats are exact
      rationals [Q].  Rounding of float32/float64 arithmetic and the special
      values produced by a gradient (NaN) are not represented; the one place
      where the code divides a tensor by a Python integer that may be zero
      (the success rate) keeps the IEEE outcomes [Inf] and [NaN].
    - A tensor is its shape together with its elements in row-major order.
    - Python exceptions are the [Raise] results of [result].
    - The functions imported from the modules [utils], [compression] and
      [decompression], the classifier, and the tensor-library calls whose
      value no property depends on are parameters of [Section Attack]. *)

From Stdlib Require Import ZArith QArith Qround Qminmax List Bool Lia Lqa.
Import ListNotations.

Local Open Scope Z_scope.

(** ** Exceptions and results *)

Inductive error : Type :=
| ZeroDivisionError
| ValueError
| RuntimeError
| UnboundLocalError.

Inductive result (A : Type) : Type :=
| Ok (a : A)
| Raise (e : error).

Arguments Ok {A} a.
Arguments Raise {A} e.

(** ** Tensors *)

Record Tensor : Type := mkTensor {
  shape : list nat;
  data : list Q
}.

Definition numel (s : list nat) : nat := fold_right Nat.mul 1%nat s.

(** [np.empty(shape)] followed by [fill(v)] and [torch.from_numpy]. *)
Definition full (s : list nat) (v : Q) : Tensor :=
  {| shape := s; data := repeat v (numel s) |}.

Definition tmap (f : Q -> Q) (t : Tensor) : Tensor :=
  {| shape := shape t; data := map f (data t) |}.

(** Element-wise map that also sees the flat index of the element. *)
Fixpoint imap_from (f : nat -> Q -> Q) (j : nat) (l : list Q) : list Q :=
  match l with
  | [] => []
  | x :: l' => f j x :: imap_from f (S j) l'
  end.

Definition timap (f : nat -> Q -> Q) (t : Tensor) : Tensor :=
  {| shape := shape t; data := imap_from f 0 (data t) |}.

(** [torch.sign] on one element. *)
Definition torch_sign (x : Q) : Q :=
  match (x ?= 0)%Q with
  | Lt => (-1)%Q
  | Eq => 0%Q
  | Gt => 1%Q
  end.

(** [torch.clamp(x, lo, hi)] on one element: [min(max(x, lo), hi)]. *)
Definition clamp (lo hi x : Q) : Q := Qmin (Qmax x lo) hi.

Definition torch_clamp (t : Tensor) (lo hi : Q) : Tensor := tmap (clamp lo hi) t.

(** [np.ceil(a / b)] for Python integers [a], [b <> 0] (true division). *)
Definition np_ceil_div (a b : Z) : Z := Qceiling (inject_Z a / inject_Z b).

(** ** The attack object *)

Inductive mark : Type := y | cb | cr.

Definition marks : list mark := [y; cb; cr].

(** The dictionary [self.q_tables], keys ['y'], ['cb'], ['cr']. *)
Record QTables : Type := mkQTables {
  q_y : Tensor;
  q_cb : Tensor;
  q_cr : Tensor
}.

Definition q_get (q : QTables) (k : mark) : Tensor :=
  match k with
  | y => q_y q
  | cb => q_cb q
  | cr => q_cr q
  end.

Definition q_set (q : QTables) (k : mark) (t : Tensor) : QTables :=
  match k with
  | y => {| q_y := t; q_cb := q_cb q; q_cr := q_cr q |}
  | cb => {| q_y := q_y q; q_cb := t; q_cr := q_cr q |}
  | cr => {| q_y := q_y q; q_cb := q_cb q; q_cr := t |}
  end.

Record InfoDrop : Type := mkInfoDrop {
  steps : Z;
  targeted : bool;
  batch_size : Z;
  height : Z;
  width : Z;
  factor_range : Q * Q;
  alpha_range : Q * Q;
  alpha : Q;
  alpha_interval : Q;
  q_tables : QTables
}.

Definition alpha_start : Q := 1 # 10.
Definition alpha_end : Q := 1 # 100000000000000000000.

(** Line 54: [np.ceil(height / block_size) * np.ceil(height / block_size)]. *)
Definition block_n (height block_size : Z) : Z :=
  np_ceil_div height block_size * np_ceil_div height block_size.

(** [InfoDrop.__init__].  [self.steps] divides on line 53 and [block_size]
    on line 54, so a zero there raises [ZeroDivisionError]; [np.empty]
    raises [ValueError] on a negative dimension.  The three tables are
    tensors over the one buffer [q_ini_table]; the buffer is only ever
    filled with [q_size] and [forward] replaces tables instead of writing
    into them, so the sharing is not observable and each key holds the
    value of the buffer.  Not represented: the rounding of [q_size] to
    float32 in the buffer, and the failures of [np.empty] and of the
    division of line 54 on dimensions too large to allocate or to hold in
    a float. *)
Definition InfoDrop_init (height width steps batch_size block_size : Z)
    (q_size : Q) (targeted : bool) : result InfoDrop :=
  if steps =? 0 then Raise ZeroDivisionError
  else if block_size =? 0 then Raise ZeroDivisionError
  else
    let bn := block_n height block_size in
    if (batch_size <? 0) || (bn <? 0) || (block_size <? 0) then Raise ValueError
    else
      let q_ini_table :=
        full [Z.to_nat batch_size; Z.to_nat bn;
              Z.to_nat block_size; Z.to_nat block_size] q_size in
      Ok {| steps := steps;
            targeted := targeted;
            batch_size := batch_size;
            height := height;
            width := width;
            factor_range := (5%Q, q_size);
            alpha_range := (alpha_start, alpha_end);
            alpha := alpha_start;
            alpha_interval := (alpha_end - alpha_start) / inject_Z steps;
            q_tables := {| q_y := q_ini_table;
                           q_cb := q_ini_table;
                           q_cr := q_ini_table |} |}.

(** The block count the specification gives for a plane. *)
Definition spec_block_count (height width block_size : Z) : Z :=
  np_ceil_div height block_size * np_ceil_div width block_size.

(** The specification's setup check: a height or width that [block_size]
    does not divide makes the constructor fail. *)
Definition rejects_misaligned : Prop :=
  forall (h wd st bs bk : Z) (q : Q) (tg : bool),
    h mod bk <> 0 \/ wd mod bk <> 0 ->
    exists e, InfoDrop_init h wd st bs bk q tg = Raise e.

(** Second dimension of a table. *)
Definition table_blocks (t : Tensor) : Z := Z.of_nat (nth 1 (shape t) 0%nat).

(** ** The store [forward] runs in *)

(** The collaborators of the attack: code of other modules and of the
    tensor library, whose results the attack only passes on. *)
Class Backend : Type := {
  (** The classifier: its weights, its logits, and the two library calls
      around it ([self.model(rgb_images)], [torch.max(outputs.data, 1)]). *)
  Params : Type;
  Logits : Type;
  model : Params -> Tensor -> Logits;
  torch_max_1 : Logits -> list Z;
  (** [images.permute(0, 2, 3, 1)[:, :, :, c]] and
      [torch.cat([a.unsqueeze(3), b.unsqueeze(3), c.unsqueeze(3)], dim=3)
       .permute(0, 3, 1, 2)]. *)
  channel : Tensor -> nat -> Tensor;
  cat_permute : Tensor -> Tensor -> Tensor -> Tensor;
  (** The block pipeline of [utils], [compression] and [decompression]. *)
  block_splitting : Tensor -> Tensor;
  dct_8x8 : Tensor -> Tensor;
  quantize : Tensor -> Tensor -> Q -> Tensor;
  dequantize : Tensor -> Tensor -> Tensor;
  idct_8x8 : Tensor -> Tensor;
  block_merging : Tensor -> Z -> Z -> Tensor;
  (** What [backward()] leaves in [self.q_tables[k].grad] at flat index [j]
      for the cost [CrossEntropyLoss(outputs, labels)], as a function of
      everything the graph of lines 87-106 is built from. *)
  ce_grad : Params -> Tensor -> list Z -> InfoDrop -> mark -> nat -> Q
}.

Section Attack.

Context {env : Backend}.

Record World : Type := mkWorld {
  caller_images : Tensor;
  caller_labels : list Z;
  classifier : Params;
  attack : InfoDrop
}.

(** State and exception monad over the store. *)
Definition M (A : Type) : Type := World -> result A * World.

Definition ret {A} (a : A) : M A := fun w => (Ok a, w).

Definition bind {A B} (m : M A) (f : A -> M B) : M B :=
  fun w =>
    match m w with
    | (Ok a, w') => f a w'
    | (Raise e, w') => (Raise e, w')
    end.

Definition raise {A} (e : error) : M A := fun w => (Raise e, w).

Definition gets {A} (f : World -> A) : M A := fun w => (Ok (f w), w).

Notation "x <- m ;; k" := (bind m (fun x => k))
  (at level 61, m at next level, right associativity).
Notation "m ;;; k" := (bind m (fun _ => k))
  (at level 61, right associativity).

Definition set_attack (a : InfoDrop) : M unit :=
  fun w => (Ok tt, {| caller_images := caller_images w;
                      caller_labels := caller_labels w;
                      classifier := classifier w;
                      attack := a |}).

Definition with_alpha (a : InfoDrop) (v : Q) : InfoDrop :=
  {| steps := steps a; targeted := targeted a; batch_size := batch_size a;
     height := height a; width := width a; factor_range := factor_range a;
     alpha_range := alpha_range a; alpha := v;
     alpha_interval := alpha_interval a; q_tables := q_tables a |}.

Definition with_q_tables (a : InfoDrop) (q : QTables) : InfoDrop :=
  {| steps := steps a; targeted := targeted a; batch_size := batch_size a;
     height := height a; width := width a; factor_range := factor_range a;
     alpha_range := alpha_range a; alpha := alpha a;
     alpha_interval := alpha_interval a; q_tables := q |}.

(** [self.alpha = v] and [self.q_tables[k] = t]. *)
Definition set_alpha (v : Q) : M unit :=
  a <- gets attack ;; set_attack (with_alpha a v).

Definition set_q_table (k : mark) (t : Tensor) : M unit :=
  a <- gets attack ;; set_attack (with_q_tables a (q_set (q_tables a) k t)).

Fixpoint for_each {A} (l : list A) (body : A -> M unit) : M unit :=
  match l with
  | [] => ret tt
  | x :: l' => body x ;;; for_each l' body
  end.

(** ** [InfoDrop.forward] *)

(** IEEE result of dividing a count by a Python integer. *)
Inductive fval : Type :=
| Fin (q : Q)
| Inf
| NaN.

(** [t / b] for an integer tensor element [c >= 0] and a Python integer
    [b]: true division, [c/0] is [inf] for [c > 0] and [nan] for [c = 0]. *)
Definition true_div (c b : Z) : fval :=
  if b =? 0 then (if c =? 0 then NaN else Inf)
  else Fin (inject_Z c / inject_Z b).

(** [suc_rate >= 1]. *)
Definition ge_1 (v : fval) : bool :=
  match v with
  | Fin q => Qle_bool 1 q
  | Inf => true
  | NaN => false
  end.

(** [pre == labels], [pre != labels] and [.sum()] on tensors of one
    dimension and equal length. *)
Definition tensor_eq (pre labels : list Z) : list bool :=
  map (fun pl => fst pl =? snd pl) (combine pre labels).

Definition tensor_ne (pre labels : list Z) : list bool :=
  map (fun pl => negb (fst pl =? snd pl)) (combine pre labels).

Definition tsum (l : list bool) : Z := Z.of_nat (count_occ bool_dec l true).

(** Lines 101-104. *)
Definition success_rate (a : InfoDrop) (pre labels : list Z) : fval :=
  if targeted a
  then true_div (tsum (tensor_eq pre labels)) (batch_size a)
  else true_div (tsum (tensor_ne pre labels)) (batch_size a).

(** Index of a component in the channel dimension (line 81). *)
Definition channel_of (k : mark) : nat :=
  match k with
  | y => 0%nat
  | cb => 1%nat
  | cr => 2%nat
  end.

(** Lines 88-93 for one component. *)
Definition codec (comp table : Tensor) (al : Q) (h w : Z) : Tensor :=
  let comp := block_splitting comp in
  let comp := dct_8x8 comp in
  let comp := quantize comp table al in
  let comp := dequantize comp table in
  let comp := idct_8x8 comp in
  block_merging comp h w.

(** Lines 86-98: the reconstructed batch for the current tables and alpha. *)
Definition rgb_of (a : InfoDrop) (images : Tensor) : Tensor :=
  let upresults k :=
    codec (channel images (channel_of k)) (q_get (q_tables a) k)
          (alpha a) (height a) (width a) in
  cat_permute (upresults y) (upresults cb) (upresults cr).

(** Line 100. *)
Definition pre_of (p : Params) (a : InfoDrop) (images : Tensor) : list Z :=
  torch_max_1 (model p (rgb_of a images)).

(** Lines 106-113: the gradient of [total_cost]; an untargeted attack
    negates the cost before [backward()]. *)
Definition table_grad (p : Params) (images : Tensor) (labels : list Z)
    (a : InfoDrop) (k : mark) (j : nat) : Q :=
  if targeted a then ce_grad p images labels a k j
  else (- ce_grad p images labels a k j)%Q.

(** Lines 119-120 for one key. *)
Definition update_table (grad : mark -> nat -> Q) (k : mark) : M unit :=
  a <- gets attack ;;
  set_q_table k
    (timap (fun j x => (x - torch_sign (grad k j))%Q) (q_get (q_tables a) k)) ;;;
  a <- gets attack ;;
  set_q_table k
    (torch_clamp (q_get (q_tables a) k)
                 (fst (factor_range a)) (snd (factor_range a))).

(** The comparison of line 102/104 broadcasts only when the lengths agree
    or one of them is 1 ([RuntimeError] otherwise); [CrossEntropyLoss] on
    line 106 raises [ValueError] unless they agree.  Nothing is assigned
    in between. *)
Definition check_batch (pre labels : list Z) : M unit :=
  if (length pre =? length labels)%nat then ret tt
  else if ((length pre =? 1) || (length labels =? 1))%nat then raise ValueError
  else raise RuntimeError.

(** One iteration of the loop of line 82, up to the test of line 123.
    It yields [rgb_images], [pre] and [suc_rate].  Of the exceptions an
    iteration can raise only the batch check is represented; a label
    outside the classes (line 106), a loss without a gradient function
    (line 113) and a table without a gradient (line 119) raise inside the
    tensor library and have no counterpart here, so the embedding has a
    completing iteration wherever the code has one, and possibly more. *)
Definition step (images : Tensor) (labels : list Z)
  : M (Tensor * list Z * fval) :=
  a <- gets attack ;;
  p <- gets classifier ;;
  let rgb_images := rgb_of a images in
  let pre := pre_of p a images in
  check_batch pre labels ;;;
  let suc_rate := success_rate a pre labels in
  let grad := table_grad p images labels a in
  set_alpha (alpha a + alpha_interval a)%Q ;;;
  for_each marks (update_table grad) ;;;
  ret (rgb_images, pre, suc_rate).

(** [for i in range(self.steps)] with the early return of line 126;
    [last] holds the locals [rgb_images] and [pre], unbound before the
    first iteration.  The two [print] calls write to standard output only
    and are left out. *)
Fixpoint loop (n : nat) (i : Z) (images : Tensor) (labels : list Z)
    (last : option (Tensor * list Z)) : M (Tensor * list Z * option Z) :=
  match n with
  | O =>
      match last with
      | None => raise UnboundLocalError
      | Some (rgb_images, pre) =>
          ret (torch_clamp rgb_images 0 255, pre, None)
      end
  | S n' =>
      r <- step images labels ;;
      let '(rgb_images, pre, suc_rate) := r in
      if ge_1 suc_rate
      then ret (torch_clamp rgb_images 0 255, pre, Some i)
      else loop n' (i + 1) images labels (Some (rgb_images, pre))
  end.

(** [forward(images, labels)]: the arguments are the caller's tensors;
    lines 75-76 work on clones.  The [.to(self.device)] moves of lines
    72-73 keep the values. *)
Definition forward : M (Tensor * list Z * option Z) :=
  images <- gets caller_images ;;
  labels <- gets caller_labels ;;
  a <- gets attack ;;
  loop (Z.to_nat (steps a)) 0 images labels None.

(** ** The trajectory of a run *)

(** The store after one iteration, and after [n] iterations, of the loop
    body on the caller's batch. *)
Definition step_world (w : World) : World :=
  snd (step (caller_images w) (caller_labels w) w).

Fixpoint after (n : nat) (w : World) : World :=
  match n with
  | O => w
  | S n' => after n' (step_world w)
  end.

(** What an iteration started in [w] computes before it changes anything. *)
Definition rgb_at (w : World) : Tensor := rgb_of (attack w) (caller_images w).

Definition pre_at (w : World) : list Z :=
  pre_of (classifier w) (attack w) (caller_images w).

Definition succeeds (w : World) : bool :=
  ge_1 (success_rate (attack w) (pre_at w) (caller_labels w)).

(** The classifier answers with one prediction per label. *)
Definition batch_ok (w : World) : Prop :=
  forall a, length (pre_of (classifier w) a (caller_images w))
            = length (caller_labels w).

(** Lines 119-120 on one table, in closed form. *)
Definition sign_step (lo hi : Q) (g : nat -> Q) (t : Tensor) : Tensor :=
  torch_clamp (timap (fun j x => (x - torch_sign (g j))%Q) t) lo hi.

(** Lines 115-120 on the attack object, in closed form. *)
Definition next_attack (p : Params) (images : Tensor) (labels : list Z)
    (a : InfoDrop) : InfoDrop :=
  let g := table_grad p images labels a in
  let lo := fst (factor_range a) in
  let hi := snd (factor_range a) in
  {| steps := steps a; targeted := targeted a; batch_size := batch_size a;
     height := height a; width := width a; factor_range := factor_range a;
     alpha_range := alpha_range a;
     alpha := (alpha a + alpha_interval a)%Q;
     alpha_interval := alpha_interval a;
     q_tables := {| q_y := sign_step lo hi (g y) (q_y (q_tables a));
                    q_cb := sign_step lo hi (g cb) (q_cb (q_tables a));
                    q_cr := sign_step lo hi (g cr) (q_cr (q_tables a)) |} |}.

(** The outcomes the specification names. *)
Definition in_range (lo hi : Q) (t : Tensor) : Prop :=
  Forall (fun x => (lo <= x /\ x <= hi)%Q) (data t).

Definition tables_in_range (a : InfoDrop) : Prop :=
  forall k, in_range (fst (factor_range a)) (snd (factor_range a))
                     (q_get (q_tables a) k).

(** Whole-batch success in the specification's words. *)
Definition batch_success (is_targeted : bool) (pre labels : list Z) : Prop :=
  if is_targeted
  then Forall2 (fun p l => p = l) pre labels
  else Forall2 (fun p l => p <> l) pre labels.

End Attack.

(** The number of images of the batch that count as attacked (lines
    102/104 before the division). *)
Definition n_success (a : InfoDrop) (pre labels : list Z) : Z :=
  if targeted a then tsum (tensor_eq pre labels)
  else tsum (tensor_ne pre labels).

(** The threshold of line 123 as a condition on that number: it has
    reached a positive [batch_size], or [batch_size] is zero and it is
    positive (the quotient is [inf]). *)
Definition reached (a : InfoDrop) (pre labels : list Z) : Prop :=
  (0 < batch_size a /\ batch_size a <= n_success a pre labels) \/
  (batch_size a = 0 /\ 0 < n_success a pre labels).

(** The constructor's outcome up to the two stored dimensions. *)
Definition same_outcome (r r' : result InfoDrop) : Prop :=
  match r, r' with
  | Ok a, Ok a' =>
      q_tables a = q_tables a' /\ steps a = steps a' /\
      targeted a = targeted a' /\ batch_size a = batch_size a' /\
      factor_range a = factor_range a' /\ alpha a = alpha a' /\
      alpha_interval a = alpha_interval a'
  | Raise e, Raise e' => e = e'
  | _, _ => False
  end.

Section AsStated.

Context {env : Backend}.

(** The specification's early stop: a run returns at a step only with a
    batch every image of which succeeded. *)
Definition stops_only_on_whole_batch (w : World) : Prop :=
  forall imgs pre i w',
    forward w = (Ok (imgs, pre, Some i), w') ->
    batch_success (targeted (attack w)) pre (caller_labels w).

(** The specification's result: the predictions returned are the
    classifier's on the batch returned. *)
Definition predictions_on_returned_batch (w : World) : Prop :=
  forall imgs pre st w',
    forward w = (Ok (imgs, pre, st), w') ->
    pre = torch_max_1 (model (classifier w) imgs).

End AsStated.

(** A rational that is an integer. *)
Definition is_int (x : Q) : Prop := exists z : Z, (x == inject_Z z)%Q.

(** ** [Normalize] *)

(** The module with its two registered buffers. *)
Record Normalize : Type := mkNormalize {
  mean : list Q;
  std : list Q
}.

(** [Normalize.__init__(mean, std)]. *)
Definition Normalize_init (mean std : list Q) : Normalize :=
  {| mean := mean; std := std |}.

(** Broadcasting against the buffer shape [(1, 3, 1, 1)] first pads the
    input shape on the left with ones up to rank 4. *)
Definition pad4 (s : list nat) : list nat :=
  repeat 1%nat (4 - length s) ++ s.

(** The dimensions before the last three, and the last three. *)
Definition lead_dims (s : list nat) : list nat := firstn (length s - 3) s.

Definition dim_from_end (s : list nat) (i : nat) : nat :=
  nth (length s - i) s 0%nat.

(** [(x / 255.0 - mean[c]) / std[c]] for one element of channel [c].  A
    zero in [std] gives [inf] or [nan] in the tensor library, which the
    rationals do not have. *)
Definition norm_elem (n : Normalize) (c : nat) (x : Q) : Q :=
  ((x / 255 - nth c (mean n) 0) / nth c (std n) 0)%Q.

(** [Normalize.forward(input)].  Both [reshape(1, 3, 1, 1)] calls need
    buffers of three elements; the subtraction broadcasts when the channel
    dimension (third from the end) of the padded input is 3, or 1, in
    which case the plane is repeated for the three channels. *)
Definition Normalize_forward (n : Normalize) (input : Tensor) : result Tensor :=
  if negb ((length (mean n) =? 3) && (length (std n) =? 3))%nat
  then Raise RuntimeError
  else
    let s := pad4 (shape input) in
    let C := dim_from_end s 3 in
    let hw := (dim_from_end s 2 * dim_from_end s 1)%nat in
    if (C =? 3)%nat then
      Ok {| shape := s;
            data := imap_from (fun j x => norm_elem n ((j / hw) mod 3) x)
                              0 (data input) |}
    else if (C =? 1)%nat then
      Ok {| shape := lead_dims s ++ [3%nat; dim_from_end s 2; dim_from_end s 1];
            data := flat_map
                      (fun p =>
                         let plane := firstn hw (skipn (p * hw) (data input)) in
                         map (norm_elem n 0) plane ++ map (norm_elem n 1) plane
                         ++ map (norm_elem n 2) plane)
                      (seq 0 (numel (lead_dims s))) |}
    else Raise RuntimeError.

(** A tensor holds as many elements as its shape says. *)
Definition well_formed (t : Tensor) : Prop := length (data t) = numel (shape t).

(** Two attack objects whose tables agree in shape and size, key by key. *)
Definition same_shapes (a a' : InfoDrop) : Prop :=
  forall k, shape (q_get (q_tables a') k) = shape (q_get (q_tables a) k) /\
            length (data (q_get (q_tables a') k))
            = length (data (q_get (q_tables a) k)).

(** * Who writes which tensor: [forward] at the level of references

    The store of [Section Attack] holds values, so it cannot tell a
    tensor from a copy of it.  Here [forward] is read once more with
    every tensor as an address into a heap.  Views ([permute], indexing,
    [detach], [.to]) keep the address; [clone], [torch.cat], [torch.max],
    [torch.clamp] and the arithmetic of lines 119-120 allocate; [+=]
    writes in place.  The functions of [utils], [compression],
    [decompression], the classifier and the loss with its [backward()]
    are arbitrary code that may overwrite every tensor it is handed and
    may hand back one of them. *)
Module Refs.

Definition addr : Type := nat.
Definition Heap : Type := list Tensor.

Definition read (h : Heap) (a : addr) : Tensor :=
  nth a h {| shape := []; data := [] |}.

Fixpoint write (h : Heap) (a : addr) (t : Tensor) : Heap :=
  match h, a with
  | [], _ => []
  | _ :: h', O => t :: h'
  | x :: h', S a' => x :: write h' a' t
  end.

(** A computation on the heap. *)
Definition R (A : Type) : Type := Heap -> Heap * A.

Definition rret {A} (x : A) : R A := fun h => (h, x).

Definition rbind {A C} (m : R A) (f : A -> R C) : R C :=
  fun h => let (h', x) := m h in f x h'.

Notation "x <~ m ;; k" := (rbind m (fun x => k))
  (at level 61, m at next level, right associativity).

(** A new tensor whose content [f] computes from the heap. *)
Definition new (f : Heap -> Tensor) : R addr :=
  fun h => (h ++ [f h], length h).

(** An in-place update of the tensor at [a]. *)
Definition poke (a : addr) (f : Heap -> Tensor) : R unit :=
  fun h => (write h a (f h), tt).

(** Code outside the attack: it gets the heap and its arguments. *)
Definition callee : Type := Heap -> list addr -> Heap * addr.

Definition call (f : callee) (args : list addr) : R addr := fun h => f h args.

(** The references the attack object holds. *)
Record Self : Type := mkSelf {
  alpha_r : addr;
  y_r : addr;
  cb_r : addr;
  cr_r : addr
}.

Record Callees : Type := mkCallees {
  block_splitting_c : callee;
  dct_8x8_c : callee;
  quantize_c : callee;
  dequantize_c : callee;
  idct_8x8_c : callee;
  block_merging_c : callee;
  model_c : callee;
  loss_backward_c : callee;
  (** Contents of the tensors the attack itself computes, by line. *)
  content : nat -> Heap -> list addr -> Tensor;
  (** The test of line 123. *)
  stop_now : Heap -> addr -> addr -> bool
}.

Section Forward.

Variable E : Callees.

(** Lines 88-93. *)
Definition codec_r (comp table al : addr) : R addr :=
  c1 <~ call (block_splitting_c E) [comp] ;;
  c2 <~ call (dct_8x8_c E) [c1] ;;
  c3 <~ call (quantize_c E) [c2; table; al] ;;
  c4 <~ call (dequantize_c E) [c3; table] ;;
  c5 <~ call (idct_8x8_c E) [c4] ;;
  call (block_merging_c E) [c5].

(** Lines 83-123: [components[k]] are views of the clone [images_c]. *)
Definition step_r (s : Self) (images_c labels_c : addr)
  : R (Self * addr * addr * bool) :=
  uy <~ codec_r images_c (y_r s) (alpha_r s) ;;
  ucb <~ codec_r images_c (cb_r s) (alpha_r s) ;;
  ucr <~ codec_r images_c (cr_r s) (alpha_r s) ;;
  rgb <~ new (fun h => content E 96 h [uy; ucb; ucr]) ;;
  outputs <~ call (model_c E) [rgb] ;;
  pre <~ new (fun h => content E 100 h [outputs]) ;;
  cost <~ call (loss_backward_c E) [outputs; labels_c] ;;
  _ <~ poke (alpha_r s) (fun h => content E 115 h [alpha_r s]) ;;
  ny <~ new (fun h => content E 119 h [y_r s]) ;;
  ncb <~ new (fun h => content E 119 h [cb_r s]) ;;
  ncr <~ new (fun h => content E 119 h [cr_r s]) ;;
  fun h =>
    (h, ({| alpha_r := alpha_r s; y_r := ny; cb_r := ncb; cr_r := ncr |},
         rgb, pre, stop_now E h pre labels_c)).

(** Lines 82-129; [None] stands for the unbound locals of line 127. *)
Fixpoint loop_r (n : nat) (s : Self) (images_c labels_c : addr)
    (last : option (addr * addr)) : R (Self * option (addr * addr)) :=
  match n with
  | O =>
      match last with
      | None => rret (s, None)
      | Some (rgb, pre) =>
          q <~ new (fun h => content E 127 h [rgb]) ;;
          rret (s, Some (q, pre))
      end
  | S n' =>
      r <~ step_r s images_c labels_c ;;
      let '(s', rgb, pre, stop) := r in
      if stop
      then q <~ new (fun h => content E 125 h [rgb]) ;;
           rret (s', Some (q, pre))
      else loop_r n' s' images_c labels_c (Some (rgb, pre))
  end.

(** [forward(images, labels)] on the caller's references (lines 75-76
    clone both). *)
Definition forward_r (n : nat) (s : Self) (images labels : addr)
  : R (Self * option (addr * addr)) :=
  images_c <~ new (fun h => read h images) ;;
  labels_c <~ new (fun h => read h labels) ;;
  loop_r n s images_c labels_c None.

End Forward.

(** A callee keeps the heap's old cells apart from its arguments, keeps
    the heap's length or extends it, and returns a new cell or one of
    its arguments. *)
Definition respects (f : callee) : Prop :=
  forall h args,
    (length h <= length (fst (f h args)))%nat /\
    (forall a, (a < length h)%nat -> ~ In a args ->
       read (fst (f h args)) a = read h a) /\
    ((length h <= snd (f h args) < length (fst (f h args)))%nat
     \/ In (snd (f h args)) args).

Definition all_respect (E : Callees) : Prop :=
  respects (block_splitting_c E) /\ respects (dct_8x8_c E) /\
  respects (quantize_c E) /\ respects (dequantize_c E) /\
  respects (idct_8x8_c E) /\ respects (block_merging_c E) /\
  respects (model_c E) /\ respects (loss_backward_c E).

(** The tensors the attack object owned when the run began. *)
Definition owned (s : Self) : list addr := [alpha_r s; y_r s; cb_r s; cr_r s].

Section FrameConditions.

Variable h0 : Heap.
Variable own : list addr.

(** An address the run may hand to foreign code: allocated during the
    run, or owned by the attack object. *)
Definition safe (a : addr) : Prop := (length h0 <= a)%nat \/ In a own.

(** The heap still holds what [h0] held, outside the owned tensors. *)
Definition agree (h : Heap) : Prop :=
  (length h0 <= length h)%nat /\
  forall a, (a < length h0)%nat -> ~ In a own -> read h a = read h0 a.

Definition ok {A} (m : R A) (post : A -> Prop) : Prop :=
  forall h, agree h -> agree (fst (m h)) /\ post (snd (m h)).

Definition safe_self (s : Self) : Prop :=
  safe (alpha_r s) /\ safe (y_r s) /\ safe (cb_r s) /\ safe (cr_r s).

(** Both returned tensors were allocated during the run. *)
Definition fresh_result (r : Self * option (addr * addr)) : Prop :=
  safe_self (fst r) /\
  match snd r with
  | Some (q, pre) => (length h0 <= q)%nat /\ (length h0 <= pre)%nat
  | None => True
  end.

End FrameConditions.

(** Foreign code at its worst: it wipes every tensor it is handed and
    returns a new one. *)
Definition wiped : Tensor := {| shape := [0%nat]; data := [] |}.

Definition clobber : callee :=
  fun h args =>
    let h' := fold_left (fun h a => write h a wiped) args h in
    (h' ++ [wiped], length h').

Definition clobbering : Callees :=
  {| block_splitting_c := clobber; dct_8x8_c := clobber;
     quantize_c := clobber; dequantize_c := clobber;
     idct_8x8_c := clobber; block_merging_c := clobber;
     model_c := clobber; loss_backward_c := clobber;
     content := fun line _ _ => {| shape := [1%nat]; data := [inject_Z (Z.of_nat line)] |};
     stop_now := fun _ _ _ => false |}.

(** Caller's images, labels and classifier weights at 0, 1, 2; alpha and
    the three tables at 3 to 6. *)
Definition cell (v : Z) : Tensor := {| shape := [1%nat]; data := [inject_Z v] |}.

Definition heap7 : Heap := map cell [10; 11; 12; 13; 14; 15; 16].

Definition self7 : Self :=
  {| alpha_r := 3%nat; y_r := 4%nat; cb_r := 5%nat; cr_r := 6%nat |}.

End Refs.

(** ** A small backend to run the attack on

    One image, one table entry per component.  The pipeline hands the
    quantization table through and stretches it to values outside
    [0, 255]; the classifier reads its class off the first pixel of the
    reconstruction (pixel value plus 300); the loss gradient is [1]
    everywhere. *)
Module Toy.

Definition stretch (t : Tensor) : Tensor := tmap (fun x => x * 300 - 1800)%Q t.

Definition first_pixel (t : Tensor) : list Z := [Qfloor (hd 0%Q (data t)) + 300].

Definition backend : Backend := {|
  Params := unit;
  Logits := Tensor;
  model := fun _ t => t;
  torch_max_1 := first_pixel;
  channel := fun t _ => t;
  cat_permute := fun a b c =>
    {| shape := shape a; data := data a ++ data b ++ data c |};
  block_splitting := fun t => t;
  dct_8x8 := fun t => t;
  quantize := fun _ table _ => table;
  dequantize := fun t _ => t;
  idct_8x8 := fun t => t;
  block_merging := fun t _ _ => stretch t;
  ce_grad := fun _ _ _ _ _ _ => 1%Q
|}.

(** The same pipeline under a classifier that answers class 42 whatever
    it is shown. *)
Definition constant_backend : Backend := {|
  Params := unit;
  Logits := unit;
  model := fun _ _ => tt;
  torch_max_1 := fun _ => [42];
  channel := fun t _ => t;
  cat_permute := fun a b c =>
    {| shape := shape a; data := data a ++ data b ++ data c |};
  block_splitting := fun t => t;
  dct_8x8 := fun t => t;
  quantize := fun _ table _ => table;
  dequantize := fun t _ => t;
  idct_8x8 := fun t => t;
  block_merging := fun t _ _ => stretch t;
  ce_grad := fun _ _ _ _ _ _ => 1%Q
|}.

Definition image : Tensor := {| shape := [1; 3; 1; 1]%nat; data := [10; 20; 30]%Q |}.

(** The attack object [InfoDrop(model, 1, 1, steps, 1, 1, 7, targeted)]. *)
Definition attack_of (steps : Z) (targeted : bool) : InfoDrop :=
  let t := full [1; 1; 1; 1]%nat 7 in
  {| steps := steps; targeted := targeted; batch_size := 1;
     height := 1; width := 1; factor_range := (5%Q, 7%Q);
     alpha_range := (alpha_start, alpha_end); alpha := alpha_start;
     alpha_interval := ((alpha_end - alpha_start) / inject_Z steps)%Q;
     q_tables := {| q_y := t; q_cb := t; q_cr := t |} |}.

Definition world (steps : Z) (targeted : bool) (label : Z) : @World backend :=
  @mkWorld backend image [label] tt (attack_of steps targeted).

(** The attack object [InfoDrop(model, 1, 1, 5, 1, 1, 3, True)], whose
    factor range [[5, 3]] is empty. *)
Definition narrow_attack : InfoDrop :=
  let t := full [1; 1; 1; 1]%nat 3 in
  {| steps := 5; targeted := true; batch_size := 1;
     height := 1; width := 1; factor_range := (5%Q, 3%Q);
     alpha_range := (alpha_start, alpha_end); alpha := alpha_start;
     alpha_interval := ((alpha_end - alpha_start) / inject_Z 5)%Q;
     q_tables := {| q_y := t; q_cb := t; q_cr := t |} |}.

Definition narrow_world : @World backend :=
  @mkWorld backend image [0] tt narrow_attack.

(** A batch of one image handed over with two labels. *)
Definition mismatched_world : @World backend :=
  @mkWorld backend image [0; 1] tt (attack_of 5 true).

(** A normalisation layer and a batch of one 1 x 2 image with three
    channels. *)
Definition norm_layer : Normalize :=
  Normalize_init [1 # 2; 1 # 4; 0]%Q [1 # 2; 1 # 4; 1]%Q.

Definition rgb_pixels : Tensor :=
  {| shape := [1; 3; 1; 2]%nat; data := [255; 0; 255; 0; 255; 51]%Q |}.

(** A classifier that answers classes 42 and 7 for a batch of two. *)
Definition pair_backend : Backend := {|
  Params := unit;
  Logits := unit;
  model := fun _ _ => tt;
  torch_max_1 := fun _ => [42; 7];
  channel := fun t _ => t;
  cat_permute := fun a b c =>
    {| shape := shape a; data := data a ++ data b ++ data c |};
  block_splitting := fun t => t;
  dct_8x8 := fun t => t;
  quantize := fun _ table _ => table;
  dequantize := fun t _ => t;
  idct_8x8 := fun t => t;
  block_merging := fun t _ _ => stretch t;
  ce_grad := fun _ _ _ _ _ _ => 1%Q
|}.

(** Two images with target labels 42 and 8 under an attack object built
    with [batch_size = 1]. *)
Definition image_pair : Tensor :=
  {| shape := [2; 3; 1; 1]%nat; data := [10; 20; 30; 40; 50; 60]%Q |}.

Definition pair_world : @World pair_backend :=
  @mkWorld pair_backend image_pair [42; 8] tt (attack_of 3 true).

Definition constant_world (steps : Z) (targeted : bool) (label : Z)
  : @World constant_backend :=
  @mkWorld constant_backend image [label] tt (attack_of steps targeted).

End Toy.

(** ** Element-wise facts *)

Lemma clamp_bounds (lo hi x : Q) :
  (lo <= hi)%Q -> (lo <= clamp lo hi x /\ clamp lo hi x <= hi)%Q.
Proof.
  intros Hle. unfold clamp. split.
  - apply Q.min_glb; [apply Q.le_max_r | exact Hle].
  - apply Q.le_min_r.
Qed.

Lemma torch_clamp_in_range (lo hi : Q) (t : Tensor) :
  (lo <= hi)%Q -> in_range lo hi (torch_clamp t lo hi).
Proof.
  intros Hle. unfold in_range, torch_clamp, tmap. simpl.
  apply Forall_forall. intros x Hin.
  apply in_map_iff in Hin. destruct Hin as (x0 & <- & _).
  apply clamp_bounds. exact Hle.
Qed.

Lemma torch_sign_pos (g : Q) : (0 < g)%Q -> torch_sign g = 1%Q.
Proof.
  intros Hg. unfold torch_sign. rewrite (proj1 (Qgt_alt g 0) Hg). reflexivity.
Qed.

Lemma torch_sign_neg (g : Q) : (g < 0)%Q -> torch_sign g = (-1)%Q.
Proof.
  intros Hg. unfold torch_sign. rewrite (proj1 (Qlt_alt g 0) Hg). reflexivity.
Qed.

Lemma torch_sign_zero (g : Q) : (g == 0)%Q -> torch_sign g = 0%Q.
Proof.
  intros Hg. unfold torch_sign. rewrite (proj1 (Qeq_alt g 0) Hg). reflexivity.
Qed.

Lemma torch_sign_scale (c g : Q) :
  (0 < c)%Q -> torch_sign (c * g) = torch_sign g.
Proof.
  intros Hc. destruct (Q_dec g 0) as [[Hneg|Hpos]|Hz].
  - rewrite (torch_sign_neg g Hneg). apply torch_sign_neg. nra.
  - rewrite (torch_sign_pos g Hpos). apply torch_sign_pos. nra.
  - rewrite (torch_sign_zero g Hz). apply torch_sign_zero. rewrite Hz. ring.
Qed.

Lemma imap_from_length (f : nat -> Q -> Q) (l : list Q) :
  forall s, length (imap_from f s l) = length l.
Proof.
  induction l as [|x l IH]; intros s; simpl; [reflexivity|].
  rewrite IH. reflexivity.
Qed.

Lemma imap_from_nth (f : nat -> Q -> Q) (l : list Q) :
  forall s j, nth_error (imap_from f s l) j
              = option_map (f (s + j)%nat) (nth_error l j).
Proof.
  induction l as [|x l IH]; intros s j.
  - destruct j; reflexivity.
  - destruct j as [|j]; simpl.
    + rewrite Nat.add_0_r. reflexivity.
    + rewrite IH. replace (S s + j)%nat with (s + S j)%nat by lia. reflexivity.
Qed.

Lemma sign_step_nth (lo hi : Q) (g : nat -> Q) (t : Tensor) (j : nat) :
  nth_error (data (sign_step lo hi g t)) j
  = option_map (fun x => clamp lo hi (x - torch_sign (g j))%Q)
               (nth_error (data t) j).
Proof.
  unfold sign_step, torch_clamp, tmap, timap. simpl.
  rewrite nth_error_map, imap_from_nth. simpl.
  destruct (nth_error (data t) j); reflexivity.
Qed.

Lemma sign_step_shape (lo hi : Q) (g : nat -> Q) (t : Tensor) :
  shape (sign_step lo hi g t) = shape t /\
  length (data (sign_step lo hi g t)) = length (data t).
Proof.
  unfold sign_step, torch_clamp, tmap, timap. simpl. split; [reflexivity|].
  rewrite length_map, imap_from_length. reflexivity.
Qed.

(** ** The constructor *)

Lemma block_n_nonneg (h b : Z) : 0 <= block_n h b.
Proof. unfold block_n. apply Z.square_nonneg. Qed.

Lemma init_Ok (h wd st bs bk : Z) (q : Q) (tg : bool) :
  st <> 0 -> 0 < bk -> 0 <= bs ->
  InfoDrop_init h wd st bs bk q tg =
  let t := full [Z.to_nat bs; Z.to_nat (block_n h bk);
                 Z.to_nat bk; Z.to_nat bk] q in
  Ok {| steps := st; targeted := tg; batch_size := bs;
        height := h; width := wd; factor_range := (5%Q, q);
        alpha_range := (alpha_start, alpha_end);
        alpha := alpha_start;
        alpha_interval := ((alpha_end - alpha_start) / inject_Z st)%Q;
        q_tables := {| q_y := t; q_cb := t; q_cr := t |} |}.
Proof.
  intros Hst Hbk Hbs. unfold InfoDrop_init.
  pose proof (block_n_nonneg h bk) as Hbn.
  destruct (st =? 0) eqn:E1; [apply Z.eqb_eq in E1; lia|].
  destruct (bk =? 0) eqn:E2; [apply Z.eqb_eq in E2; lia|].
  destruct (bs <? 0) eqn:E3; [apply Z.ltb_lt in E3; lia|].
  destruct (block_n h bk <? 0) eqn:E4; [apply Z.ltb_lt in E4; lia|].
  destruct (bk <? 0) eqn:E5; [apply Z.ltb_lt in E5; lia|].
  reflexivity.
Qed.

Lemma init_accepted (h wd st bs bk : Z) (q : Q) (tg : bool) (a : InfoDrop) :
  InfoDrop_init h wd st bs bk q tg = Ok a -> st <> 0 /\ 0 < bk /\ 0 <= bs.
Proof.
  unfold InfoDrop_init.
  destruct (st =? 0) eqn:E1; [discriminate|].
  destruct (bk =? 0) eqn:E2; [discriminate|].
  destruct (bs <? 0) eqn:E3; [discriminate|].
  destruct (block_n h bk <? 0) eqn:E4; [discriminate|].
  destruct (bk <? 0) eqn:E5; [discriminate|].
  intros _. apply Z.eqb_neq in E1. apply Z.eqb_neq in E2.
  apply Z.ltb_ge in E3. apply Z.ltb_ge in E5. lia.
Qed.

Lemma init_blocks (h wd st bs bk : Z) (q : Q) (tg : bool) (a : InfoDrop) :
  InfoDrop_init h wd st bs bk q tg = Ok a ->
  forall k, table_blocks (q_get (q_tables a) k) = block_n h bk.
Proof.
  intros Hinit k.
  destruct (init_accepted _ _ _ _ _ _ _ _ Hinit) as (Hst & Hbk & Hbs).
  rewrite init_Ok in Hinit by assumption. cbv zeta in Hinit.
  injection Hinit as <-.
  destruct k; unfold table_blocks; cbn [q_get q_tables q_y q_cb q_cr full shape nth];
    apply Z2Nat.id, block_n_nonneg.
Qed.

(** ** Counting the batch *)

Lemma tsum_all (f : Z -> Z -> bool) :
  forall pre labels, length pre = length labels ->
    tsum (map (fun pl => f (fst pl) (snd pl)) (combine pre labels))
      <= Z.of_nat (length labels) /\
    (tsum (map (fun pl => f (fst pl) (snd pl)) (combine pre labels))
      = Z.of_nat (length labels)
     <-> Forall2 (fun p l => f p l = true) pre labels).
Proof.
  unfold tsum.
  induction pre as [|p pre IH]; intros [|l labels] Hlen; try discriminate.
  - simpl. split; [lia|]. split; [constructor | reflexivity].
  - injection Hlen as Hlen. destruct (IH labels Hlen) as (Hle & Hiff).
    cbn [combine map fst snd length].
    destruct (f p l) eqn:Hf.
    + rewrite count_occ_cons_eq by reflexivity. split; [lia|]. split.
      * intros Hc. constructor; [exact Hf|]. apply Hiff. lia.
      * intros Hall. inversion Hall; subst.
        assert (Z.of_nat (count_occ bool_dec
                  (map (fun pl => f (fst pl) (snd pl)) (combine pre labels)) true)
                = Z.of_nat (length labels)) by (apply Hiff; assumption).
        lia.
    + rewrite count_occ_cons_neq by discriminate. split; [lia|]. split.
      * intros Hc. lia.
      * intros Hall. inversion Hall; subst. congruence.
Qed.

Lemma ge_1_true_div (c b : Z) :
  0 < b -> (ge_1 (true_div c b) = true <-> b <= c).
Proof.
  intros Hb. unfold true_div.
  destruct (b =? 0) eqn:E; [apply Z.eqb_eq in E; lia|].
  cbn [ge_1]. rewrite Qle_bool_iff.
  destruct b as [|pb|pb]; try lia.
  unfold Qle, Qdiv, Qinv, Qmult, inject_Z. simpl. lia.
Qed.

Lemma success_rate_iff (a : InfoDrop) (pre labels : list Z) :
  0 < batch_size a -> batch_size a = Z.of_nat (length labels) ->
  length pre = length labels ->
  (ge_1 (success_rate a pre labels) = true
   <-> batch_success (targeted a) pre labels).
Proof.
  intros Hpos Hbs Hlen. unfold success_rate, batch_success.
  destruct (targeted a).
  - rewrite ge_1_true_div by exact Hpos. rewrite Hbs.
    destruct (tsum_all Z.eqb pre labels Hlen) as (Hle & Hiff).
    fold (tensor_eq pre labels) in Hle, Hiff. split.
    + intros Hge. eapply Forall2_impl; [|apply Hiff; lia].
      intros p l Hpl. apply Z.eqb_eq. exact Hpl.
    + intros Hall. apply Z.eq_le_incl. symmetry. apply Hiff.
      eapply Forall2_impl; [|exact Hall].
      intros p l Hpl. apply Z.eqb_eq. exact Hpl.
  - rewrite ge_1_true_div by exact Hpos. rewrite Hbs.
    destruct (tsum_all (fun p l => negb (p =? l)) pre labels Hlen) as (Hle & Hiff).
    fold (tensor_ne pre labels) in Hle, Hiff. split.
    + intros Hge. eapply Forall2_impl; [|apply Hiff; lia].
      intros p l Hpl. simpl in Hpl. apply negb_true_iff, Z.eqb_neq in Hpl. exact Hpl.
    + intros Hall. apply Z.eq_le_incl. symmetry. apply Hiff.
      eapply Forall2_impl; [|exact Hall].
      intros p l Hpl. simpl. apply negb_true_iff, Z.eqb_neq. exact Hpl.
Qed.

Section Properties.

Context {env : Backend}.

(** ** The loop body in closed form *)

Lemma step_gen (images : Tensor) (labels : list Z) (w : World) :
  step images labels w =
  let pre := pre_of (classifier w) (attack w) images in
  if (length pre =? length labels)%nat
  then (Ok (rgb_of (attack w) images, pre,
            success_rate (attack w) pre labels),
        {| caller_images := caller_images w;
           caller_labels := caller_labels w;
           classifier := classifier w;
           attack := next_attack (classifier w) images labels (attack w) |})
  else (Raise (if ((length pre =? 1) || (length labels =? 1))%nat
               then ValueError else RuntimeError), w).
Proof.
  unfold step, bind, gets, check_batch. simpl.
  destruct (length _ =? length _)%nat; simpl.
  - reflexivity.
  - destruct (_ || _); reflexivity.
Qed.

Lemma step_spec (w : World) :
  step (caller_images w) (caller_labels w) w =
  if (length (pre_at w) =? length (caller_labels w))%nat
  then (Ok (rgb_at w, pre_at w,
            success_rate (attack w) (pre_at w) (caller_labels w)),
        {| caller_images := caller_images w;
           caller_labels := caller_labels w;
           classifier := classifier w;
           attack := next_attack (classifier w) (caller_images w)
                                 (caller_labels w) (attack w) |})
  else (Raise (if ((length (pre_at w) =? 1)
                   || (length (caller_labels w) =? 1))%nat
               then ValueError else RuntimeError), w).
Proof. apply step_gen. Qed.

Lemma step_world_ok (w : World) :
  length (pre_at w) = length (caller_labels w) ->
  step_world w =
  {| caller_images := caller_images w;
     caller_labels := caller_labels w;
     classifier := classifier w;
     attack := next_attack (classifier w) (caller_images w)
                           (caller_labels w) (attack w) |}.
Proof.
  intros Hlen. unfold step_world. rewrite step_spec.
  apply Nat.eqb_eq in Hlen. rewrite Hlen. reflexivity.
Qed.

(** The loop body leaves everything but [alpha] and the tables alone. *)
Definition same_frame (w w' : World) : Prop :=
  caller_images w' = caller_images w /\
  caller_labels w' = caller_labels w /\
  classifier w' = classifier w /\
  steps (attack w') = steps (attack w) /\
  targeted (attack w') = targeted (attack w) /\
  batch_size (attack w') = batch_size (attack w) /\
  height (attack w') = height (attack w) /\
  width (attack w') = width (attack w) /\
  factor_range (attack w') = factor_range (attack w) /\
  alpha_range (attack w') = alpha_range (attack w) /\
  alpha_interval (attack w') = alpha_interval (attack w).

Lemma same_frame_refl (w : World) : same_frame w w.
Proof. repeat split. Qed.

Lemma same_frame_trans (w1 w2 w3 : World) :
  same_frame w1 w2 -> same_frame w2 w3 -> same_frame w1 w3.
Proof.
  unfold same_frame. intros H12 H23.
  decompose [and] H12. decompose [and] H23.
  repeat split; congruence.
Qed.

Lemma step_frame (images : Tensor) (labels : list Z) (w : World) :
  same_frame w (snd (step images labels w)).
Proof.
  unfold step, bind, gets, check_batch. simpl.
  destruct (length _ =? length _)%nat; simpl.
  - repeat split.
  - destruct (_ || _); apply same_frame_refl.
Qed.

Lemma step_world_frame (w : World) : same_frame w (step_world w).
Proof. apply step_frame. Qed.

Lemma after_frame (n : nat) : forall w, same_frame w (after n w).
Proof.
  induction n as [|n IH]; intros w; simpl.
  - apply same_frame_refl.
  - eapply same_frame_trans; [apply step_world_frame | apply IH].
Qed.

Lemma after_S (n : nat) : forall w, after (S n) w = step_world (after n w).
Proof.
  induction n as [|n IH]; intros w.
  - reflexivity.
  - change (after (S (S n)) w) with (after (S n) (step_world w)).
    rewrite IH. reflexivity.
Qed.

Lemma batch_ok_frame (w w' : World) :
  same_frame w w' -> batch_ok w -> batch_ok w'.
Proof.
  unfold batch_ok. intros (Hi & Hl & Hc & _) H a.
  rewrite Hi, Hl, Hc. apply H.
Qed.

(** ** The loop in closed form *)

(** What a returned triple says about the run that produced it: [m]
    iterations were executed from [w], every one of them passed the batch
    check, none before the last reached the threshold. *)
Definition run_of (n : nat) (i : Z) (last : option (Tensor * list Z))
    (w : World) (imgs : Tensor) (pre : list Z) (st : option Z) (w' : World)
    (m : nat) : Prop :=
  w' = after m w /\ (m <= n)%nat /\
  (forall j, (j < m)%nat ->
     length (pre_at (after j w)) = length (caller_labels w)) /\
  (forall j, (S j < m)%nat -> succeeds (after j w) = false) /\
  match st with
  | Some k =>
      exists j, m = S j /\ k = i + Z.of_nat j /\
        succeeds (after j w) = true /\
        imgs = torch_clamp (rgb_at (after j w)) 0 255 /\
        pre = pre_at (after j w)
  | None =>
      m = n /\
      (forall j, (j < n)%nat -> succeeds (after j w) = false) /\
      match n with
      | O => exists rgb, last = Some (rgb, pre) /\ imgs = torch_clamp rgb 0 255
      | S j => imgs = torch_clamp (rgb_at (after j w)) 0 255 /\
               pre = pre_at (after j w)
      end
  end.

Lemma loop_Ok (n : nat) :
  forall i last w imgs pre st w',
    loop n i (caller_images w) (caller_labels w) last w
      = (Ok (imgs, pre, st), w') ->
    exists m, run_of n i last w imgs pre st w' m.
Proof.
  induction n as [|n IH]; intros i last w imgs pre st w' Hrun.
  - cbn [loop] in Hrun. destruct last as [[rgb p0]|]; [|discriminate].
    unfold ret in Hrun. injection Hrun as <- <- <- <-.
    exists O. unfold run_of. repeat split; try (intros; lia).
    exists rgb. split; reflexivity.
  - cbn [loop] in Hrun. unfold bind in Hrun. rewrite step_spec in Hrun.
    destruct (length (pre_at w) =? length (caller_labels w))%nat eqn:Hlen;
      [|discriminate].
    apply Nat.eqb_eq in Hlen.
    pose proof (step_world_ok w Hlen) as Hw1.
    set (w1 := step_world w) in *.
    rewrite <- Hw1 in Hrun.
    destruct (ge_1 (success_rate (attack w) (pre_at w) (caller_labels w)))
      eqn:Hsuc.
    + unfold ret in Hrun. injection Hrun as <- <- <- <-.
      exists 1%nat. unfold run_of. split; [reflexivity|]. split; [lia|].
      split; [|split].
      * intros j Hj. assert (j = O) by lia. subst j. exact Hlen.
      * intros j Hj. lia.
      * exists O. repeat split; [lia | exact Hsuc].
    + assert (Hi : caller_images w1 = caller_images w) by (rewrite Hw1; reflexivity).
      assert (Hl : caller_labels w1 = caller_labels w) by (rewrite Hw1; reflexivity).
      rewrite <- Hi, <- Hl in Hrun.
      apply IH in Hrun. destruct Hrun as (m & Hw' & Hm & Hlens & Hno & Hst).
      exists (S m). unfold run_of. split; [exact Hw'|]. split; [lia|].
      split; [|split].
      * intros [|j] Hj; [exact Hlen|].
        rewrite <- Hl. apply (Hlens j). lia.
      * intros [|j] Hj; [exact Hsuc|]. apply (Hno j). lia.
      * destruct st as [k|].
        -- destruct Hst as (j & -> & -> & Hs & Himg & Hpre).
           exists (S j). repeat split; try assumption. lia.
        -- destruct Hst as (-> & Hall & Hlast). split; [reflexivity|].
           split.
           ++ intros [|j] Hj; [exact Hsuc|]. apply (Hall j). lia.
           ++ clear IH. destruct n as [|j].
              ** destruct Hlast as (rgb & Heq & ->).
                 injection Heq as <- <-. split; reflexivity.
              ** exact Hlast.
Qed.

Lemma loop_returns (n : nat) :
  forall i last w,
    batch_ok w -> (0 < n)%nat \/ last <> None ->
    exists r w', loop n i (caller_images w) (caller_labels w) last w
                 = (Ok r, w').
Proof.
  induction n as [|n IH]; intros i last w Hok Hne.
  - destruct Hne as [Hn|Hlast]; [lia|].
    cbn [loop]. destruct last as [[rgb p0]|]; [|congruence].
    eexists. eexists. reflexivity.
  - cbn [loop]. unfold bind. rewrite step_spec.
    assert (Hlen : length (pre_at w) = length (caller_labels w)) by apply Hok.
    pose proof (step_world_ok w Hlen) as Hw1.
    apply Nat.eqb_eq in Hlen. rewrite Hlen.
    rewrite <- Hw1.
    destruct (ge_1 _).
    + eexists. eexists. reflexivity.
    + assert (Hf : same_frame w (step_world w)) by apply step_world_frame.
      destruct Hf as (Hi & Hl & _).
      rewrite <- Hi, <- Hl. apply IH.
      * eapply batch_ok_frame; [apply step_world_frame | exact Hok].
      * right. discriminate.
Qed.

Lemma forward_Ok (w : World) imgs pre st w' :
  forward w = (Ok (imgs, pre, st), w') ->
  exists m, run_of (Z.to_nat (steps (attack w))) 0 None w imgs pre st w' m.
Proof.
  unfold forward, bind, gets. apply loop_Ok.
Qed.

Lemma loop_frame (n : nat) :
  forall i images labels last w,
    same_frame w (snd (loop n i images labels last w)).
Proof.
  induction n as [|n IH]; intros i images labels last w.
  - cbn [loop]. destruct last as [[rgb p0]|]; apply same_frame_refl.
  - cbn [loop]. unfold bind.
    pose proof (step_frame images labels w) as Hstep.
    destruct (step images labels w) as [[[[rgb p0] suc]|e] w1]; simpl in Hstep.
    + destruct (ge_1 suc).
      * exact Hstep.
      * eapply same_frame_trans; [exact Hstep | apply IH].
    + exact Hstep.
Qed.

Lemma next_attack_in_range (p : Params) (images : Tensor) (labels : list Z)
    (a : InfoDrop) :
  (fst (factor_range a) <= snd (factor_range a))%Q ->
  tables_in_range (next_attack p images labels a).
Proof.
  intros Hle k. unfold next_attack. simpl.
  destruct k; simpl; unfold sign_step; apply torch_clamp_in_range; exact Hle.
Qed.

Lemma forward_returns (w : World) :
  0 < steps (attack w) -> batch_ok w ->
  exists r w', forward w = (Ok r, w').
Proof.
  intros Hs Hok. unfold forward, bind, gets.
  apply loop_returns; [exact Hok | left; lia].
Qed.

Lemma after_S_ok (j : nat) (w : World) :
  length (pre_at (after j w)) = length (caller_labels w) ->
  attack (after (S j) w)
  = next_attack (classifier w) (caller_images w) (caller_labels w)
                (attack (after j w)).
Proof.
  intros Hlen. rewrite after_S.
  destruct (after_frame j w) as (Hi & Hl & Hc & _).
  rewrite step_world_ok by (rewrite Hl; exact Hlen).
  simpl. rewrite Hi, Hl, Hc. reflexivity.
Qed.

Lemma run_of_pos n w imgs pre st w' m :
  run_of n 0 None w imgs pre st w' m -> (1 <= m)%nat.
Proof.
  intros (_ & _ & _ & _ & Hst). destruct st as [k|].
  - destruct Hst as (j & -> & _). lia.
  - destruct Hst as (-> & _ & Hlast). destruct n as [|j]; [|lia].
    destruct Hlast as (rgb & Heq & _). discriminate.
Qed.

Lemma run_of_clamped n i last w imgs pre st w' m :
  run_of n i last w imgs pre st w' m ->
  exists rgb, imgs = torch_clamp rgb 0 255.
Proof.
  intros (_ & _ & _ & _ & Hst). destruct st as [k|].
  - destruct Hst as (j & _ & _ & _ & -> & _). eexists. reflexivity.
  - destruct Hst as (_ & _ & Hlast). destruct n as [|j].
    + destruct Hlast as (rgb & _ & ->). eexists. reflexivity.
    + destruct Hlast as (-> & _). eexists. reflexivity.
Qed.

(** X3.  Without an iteration the locals of line 127 are unbound: with a
    step budget that is not positive [forward] raises [UnboundLocalError]
    and leaves the store as it was.  A zero budget never gets this far:
    the constructor rejects it. *)
Lemma forward_empty_budget (w : World) :
  steps (attack w) <= 0 -> forward w = (Raise UnboundLocalError, w).
Proof.
  intros Hs. unfold forward, bind, gets.
  replace (Z.to_nat (steps (attack w))) with O by lia. reflexivity.
Qed.

(** ** Properties of [forward] *)

(** C7.  Whether the run ends at the early return or after the last step,
    every element of the returned image batch lies in [0, 255]; and a run
    with a positive step budget on a well-formed batch does return. *)
Theorem forward_output_clamped (w : World) :
  (forall imgs pre st w',
     forward w = (Ok (imgs, pre, st), w') -> in_range 0 255 imgs) /\
  (0 < steps (attack w) -> batch_ok w ->
   exists imgs pre st w',
     forward w = (Ok (imgs, pre, st), w') /\ in_range 0 255 imgs).
Proof.
  assert (Hmain : forall imgs pre st w',
             forward w = (Ok (imgs, pre, st), w') -> in_range 0 255 imgs).
  { intros imgs pre st w' Hrun.
    destruct (forward_Ok _ _ _ _ _ Hrun) as (m & Hm).
    destruct (run_of_clamped _ _ _ _ _ _ _ _ _ Hm) as (rgb & ->).
    apply torch_clamp_in_range. discriminate. }
  split; [exact Hmain|].
  intros Hs Hok.
  destruct (forward_returns w Hs Hok) as ([[imgs pre] st] & w' & Hrun).
  exists imgs, pre, st, w'. split; [exact Hrun|].
  eapply Hmain. exact Hrun.
Qed.

(** C4.  With [min_factor <= max_factor], every iteration that completes
    leaves all elements of the three tables within
    [[min_factor, max_factor]]; so the tables are in range after each step
    of every run that returns, at the early return as after the last step. *)
Theorem tables_clamped_every_step (w : World) :
  (fst (factor_range (attack w)) <= snd (factor_range (attack w)))%Q ->
  (forall images labels r w',
     step images labels w = (Ok r, w') -> tables_in_range (attack w')) /\
  (forall imgs pre st w',
     forward w = (Ok (imgs, pre, st), w') ->
     exists m, w' = after m w /\ (1 <= m)%nat /\
       forall j, (1 <= j <= m)%nat -> tables_in_range (attack (after j w))).
Proof.
  intros Hle. split.
  - intros images labels r w' Hstep. rewrite step_gen in Hstep. simpl in Hstep.
    destruct (length _ =? length _)%nat; [|discriminate].
    injection Hstep as _ <-. simpl.
    apply next_attack_in_range. exact Hle.
  - intros imgs pre st w' Hrun.
    destruct (forward_Ok _ _ _ _ _ Hrun) as (m & Hm).
    pose proof (run_of_pos _ _ _ _ _ _ _ Hm) as Hpos.
    destruct Hm as (Hw' & _ & Hlens & _).
    exists m. split; [exact Hw'|]. split; [exact Hpos|].
    intros [|j] Hj; [lia|].
    rewrite after_S_ok by (apply Hlens; lia).
    apply next_attack_in_range.
    destruct (after_frame j w) as (_ & _ & _ & _ & _ & _ & _ & _ & Hfr & _).
    rewrite Hfr. exact Hle.
Qed.

Lemma alpha_after (w : World) :
  forall k,
    (forall j, (j < k)%nat ->
       length (pre_at (after j w)) = length (caller_labels w)) ->
    (alpha (attack (after k w))
     == alpha (attack w) + inject_Z (Z.of_nat k) * alpha_interval (attack w))%Q.
Proof.
  induction k as [|k IH]; intros Hlens.
  - simpl. ring.
  - rewrite after_S_ok by (apply Hlens; lia).
    unfold next_attack. cbn [alpha].
    rewrite IH by (intros j Hj; apply Hlens; lia).
    destruct (after_frame k w) as (_ & _ & _ & _ & _ & _ & _ & _ & _ & _ & Hint).
    rewrite Hint, Nat2Z.inj_succ. unfold Z.succ. rewrite inject_Z_plus. ring.
Qed.

(** C10.  A run that returns at step [i] took its predictions and its
    success rate from the tables and alpha as they stood at the start of
    step [i], and returns after the updates of that step: the store it
    leaves has seen [i + 1] alpha increments and [i + 1] table updates. *)
Theorem early_return_after_update (w : World) imgs pre i w' :
  forward w = (Ok (imgs, pre, Some i), w') ->
  exists j, i = Z.of_nat j /\
    pre = pre_at (after j w) /\
    imgs = torch_clamp (rgb_at (after j w)) 0 255 /\
    succeeds (after j w) = true /\
    w' = after (S j) w /\
    (forall n, (n <= j)%nat ->
       let a := attack (after n w) in
       let a' := attack (after (S n) w) in
       alpha a' = (alpha a + alpha_interval a)%Q /\
       forall k, q_get (q_tables a') k
                 = sign_step (fst (factor_range a)) (snd (factor_range a))
                     (table_grad (classifier w) (caller_images w)
                                 (caller_labels w) a k)
                     (q_get (q_tables a) k)) /\
    (alpha (attack w')
     == alpha (attack w) + inject_Z (i + 1) * alpha_interval (attack w))%Q.
Proof.
  intros Hrun.
  destruct (forward_Ok _ _ _ _ _ Hrun) as (m & Hw' & _ & Hlens & _ & Hst).
  destruct Hst as (j & -> & -> & Hsuc & Himg & Hpre).
  exists j. split; [simpl; reflexivity|].
  split; [exact Hpre|]. split; [exact Himg|]. split; [exact Hsuc|].
  split; [exact Hw'|]. split.
  - intros n Hn a a'. unfold a'.
    rewrite after_S_ok by (apply Hlens; lia).
    split; [reflexivity|]. intros k. destruct k; reflexivity.
  - rewrite Hw', (alpha_after w (S j) Hlens).
    replace (0 + Z.of_nat j + 1) with (Z.of_nat (S j)) by lia. reflexivity.
Qed.

Lemma succeeds_iff (w : World) (j : nat) :
  0 < batch_size (attack w) ->
  batch_size (attack w) = Z.of_nat (length (caller_labels w)) ->
  batch_ok w ->
  (succeeds (after j w) = true
   <-> batch_success (targeted (attack w)) (pre_at (after j w))
                     (caller_labels w)).
Proof.
  intros Hpos Hbs Hok.
  destruct (after_frame j w) as (Hi & Hl & Hc & _ & Htg & Hb & _).
  unfold succeeds. rewrite Hl, <- Htg.
  apply success_rate_iff.
  - rewrite Hb. exact Hpos.
  - rewrite Hb. exact Hbs.
  - unfold pre_at. rewrite Hi, Hc. apply Hok.
Qed.

End Properties.

(** ** Properties of the constructor *)

(** C1.  The table's block dimension is computed from the height alone:
    for a 16 x 8 plane and block size 8 the constructor allocates
    [ceil(16/8) * ceil(16/8) = 4] blocks per table where the plane has
    [ceil(16/8) * ceil(8/8) = 2]; for the square 224 x 224 plane the count
    is the expected 784. *)
Theorem block_count_uses_height_twice :
  (exists a, InfoDrop_init 16 8 40 20 8 10 false = Ok a /\
     (forall k, table_blocks (q_get (q_tables a) k) = 4) /\
     spec_block_count 16 8 8 = 2) /\
  (exists a, InfoDrop_init 224 224 40 20 8 10 false = Ok a /\
     (forall k, table_blocks (q_get (q_tables a) k) = 784) /\
     spec_block_count 224 224 8 = 784).
Proof.
  split.
  - eexists. split; [apply init_Ok; lia|]. split; [|reflexivity].
    intros k. rewrite (init_blocks 16 8 40 20 8 10 false) by (apply init_Ok; lia).
    reflexivity.
  - eexists. split; [apply init_Ok; lia|]. split; [|reflexivity].
    intros k. rewrite (init_blocks 224 224 40 20 8 10 false) by (apply init_Ok; lia).
    reflexivity.
Qed.

(** Whenever the plane is square the two counts agree. *)
Lemma block_count_square (h st bs bk : Z) (q : Q) (tg : bool) (a : InfoDrop) :
  InfoDrop_init h h st bs bk q tg = Ok a ->
  forall k, table_blocks (q_get (q_tables a) k) = spec_block_count h h bk.
Proof. intros Hinit k. rewrite (init_blocks _ _ _ _ _ _ _ _ Hinit). reflexivity. Qed.

(** C8, as the specification states it, fails: a 10 x 12 plane with block
    size 8 is accepted. *)
Lemma misaligned_dimensions_accepted : ~ rejects_misaligned.
Proof.
  intros Hrej.
  destruct (Hrej 10 12 40 20 8 10%Q false) as (e & He).
  - left. discriminate.
  - rewrite init_Ok in He by lia. discriminate.
Qed.

(** ** The properties on concrete runs

    [Toy.world 5 true 0] is a targeted run that reaches its target class 0
    at step 2 (the reconstruction reads 300, 0, -300 at steps 0, 1, 2 and
    the predicted class is 600, 300, 0); [Toy.world 1 true 0] runs its
    single step out with the pixel value 300. *)

Lemma forward_output_clamped_witness :
  forward (Toy.world 5 true 0)
    = (Ok ({| shape := [1; 1; 1; 1]%nat; data := [0; 0; 0]%Q |},
           [0], Some 2),
       after 3 (Toy.world 5 true 0)) /\
  in_range 0 255 {| shape := [1; 1; 1; 1]%nat; data := [0; 0; 0]%Q |} /\
  forward (Toy.world 1 true 0)
    = (Ok ({| shape := [1; 1; 1; 1]%nat; data := [255; 255; 255]%Q |},
           [600], None),
       after 1 (Toy.world 1 true 0)) /\
  in_range 0 255 {| shape := [1; 1; 1; 1]%nat; data := [255; 255; 255]%Q |}.
Proof.
  assert (H1 : forward (Toy.world 5 true 0)
    = (Ok ({| shape := [1; 1; 1; 1]%nat; data := [0; 0; 0]%Q |},
           [0], Some 2),
       after 3 (Toy.world 5 true 0))) by (vm_compute; reflexivity).
  assert (H2 : forward (Toy.world 1 true 0)
    = (Ok ({| shape := [1; 1; 1; 1]%nat; data := [255; 255; 255]%Q |},
           [600], None),
       after 1 (Toy.world 1 true 0))) by (vm_compute; reflexivity).
  split; [exact H1|]. split.
  - exact (proj1 (forward_output_clamped (Toy.world 5 true 0)) _ _ _ _ H1).
  - split; [exact H2|].
    exact (proj1 (forward_output_clamped (Toy.world 1 true 0)) _ _ _ _ H2).
Defined.

Lemma tables_clamped_every_step_witness :
  (fst (factor_range (attack (Toy.world 5 true 0)))
   <= snd (factor_range (attack (Toy.world 5 true 0))))%Q /\
  tables_in_range (attack (step_world (Toy.world 5 true 0))).
Proof.
  assert (Hle : (fst (factor_range (attack (Toy.world 5 true 0)))
     <= snd (factor_range (attack (Toy.world 5 true 0))))%Q)
    by (vm_compute; discriminate).
  split; [exact Hle|].
  apply (proj1 (tables_clamped_every_step (Toy.world 5 true 0) Hle)
           Toy.image [0]
           (rgb_at (Toy.world 5 true 0),
            pre_at (Toy.world 5 true 0),
            success_rate (attack (Toy.world 5 true 0))
                         (pre_at (Toy.world 5 true 0)) [0])).
  vm_compute. reflexivity.
Defined.

Lemma early_return_after_update_witness :
  forward (Toy.world 5 true 0)
    = (Ok ({| shape := [1; 1; 1; 1]%nat; data := [0; 0; 0]%Q |},
           [0], Some 2),
       after 3 (Toy.world 5 true 0)) /\
  (alpha (attack (after 3 (Toy.world 5 true 0)))
   == alpha (attack (Toy.world 5 true 0))
      + inject_Z (2 + 1) * alpha_interval (attack (Toy.world 5 true 0)))%Q.
Proof.
  assert (H : forward (Toy.world 5 true 0)
    = (Ok ({| shape := [1; 1; 1; 1]%nat; data := [0; 0; 0]%Q |},
           [0], Some 2),
       after 3 (Toy.world 5 true 0))) by (vm_compute; reflexivity).
  split; [exact H|].
  destruct (early_return_after_update _ _ _ _ _ H)
    as (j & _ & _ & _ & _ & _ & _ & Halpha).
  exact Halpha.
Defined.

(** * Further properties of the attack *)

(** ** More element-wise facts *)

Lemma torch_sign_range (g : Q) : (-1 <= torch_sign g /\ torch_sign g <= 1)%Q.
Proof.
  unfold torch_sign. destruct (g ?= 0)%Q; split; discriminate.
Qed.

Lemma torch_sign_is_int (g : Q) : is_int (torch_sign g).
Proof.
  unfold torch_sign, is_int. destruct (g ?= 0)%Q.
  - exists 0. reflexivity.
  - exists (-1). reflexivity.
  - exists 1. reflexivity.
Qed.

Lemma clamp_near (lo hi x z : Q) :
  (lo <= x)%Q -> (x <= hi)%Q -> (x - 1 <= z)%Q -> (z <= x + 1)%Q ->
  (x - 1 <= clamp lo hi z /\ clamp lo hi z <= x + 1)%Q.
Proof.
  intros Hlo Hhi Hz1 Hz2. unfold clamp.
  destruct (Q.max_spec z lo) as [[H1 E1]|[H1 E1]];
    destruct (Q.min_spec (Qmax z lo) hi) as [[H2 E2]|[H2 E2]];
    rewrite E2; try rewrite E1; split; lra.
Qed.

Lemma clamp_floor (lo hi z b : Q) :
  (b <= lo)%Q -> (b <= hi)%Q -> (b <= clamp lo hi z)%Q.
Proof.
  intros Hlo Hhi. unfold clamp.
  apply Q.min_glb; [|exact Hhi].
  apply Qle_trans with lo; [exact Hlo | apply Q.le_max_r].
Qed.

Lemma clamp_above (lo hi z b : Q) :
  (b <= z)%Q -> (b <= hi)%Q -> (b <= clamp lo hi z)%Q.
Proof.
  intros Hz Hhi. unfold clamp.
  apply Q.min_glb; [|exact Hhi].
  apply Qle_trans with z; [exact Hz | apply Q.le_max_l].
Qed.

Lemma clamp_collapsed (lo hi z : Q) :
  (hi <= lo)%Q -> (clamp lo hi z == hi)%Q.
Proof.
  intros Hle. unfold clamp. apply Q.min_r.
  apply Qle_trans with lo; [exact Hle | apply Q.le_max_r].
Qed.

Lemma is_int_clamp (lo hi z : Q) :
  is_int lo -> is_int hi -> is_int z -> is_int (clamp lo hi z).
Proof.
  intros (a & Ha) (b & Hb) (c & Hc). unfold clamp, is_int.
  destruct (Q.min_dec (Qmax z lo) hi) as [E|E].
  - destruct (Q.max_dec z lo) as [E'|E'].
    + exists c. rewrite E, E'. exact Hc.
    + exists a. rewrite E, E'. exact Ha.
  - exists b. rewrite E. exact Hb.
Qed.

Lemma is_int_sub (x s : Q) : is_int x -> is_int s -> is_int (x - s).
Proof.
  intros (a & Ha) (b & Hb). exists (a - b).
  rewrite Ha, Hb. unfold Z.sub. rewrite inject_Z_plus, inject_Z_opp. ring.
Qed.

Lemma sign_step_In (lo hi : Q) (g : nat -> Q) (t : Tensor) (x : Q) :
  In x (data (sign_step lo hi g t)) ->
  exists j x0, nth_error (data t) j = Some x0 /\
               x = clamp lo hi (x0 - torch_sign (g j))%Q.
Proof.
  intros Hin. apply In_nth_error in Hin. destruct Hin as (j & Hj).
  rewrite sign_step_nth in Hj.
  destruct (nth_error (data t) j) as [x0|] eqn:Hx0; [|discriminate].
  injection Hj as <-. exists j, x0. split; [exact Hx0 | reflexivity].
Qed.

Lemma tsum_nonneg (l : list bool) : 0 <= tsum l.
Proof. unfold tsum. lia. Qed.

Lemma tsum_ne_refl (l : list Z) : tsum (tensor_ne l l) = 0.
Proof.
  unfold tsum, tensor_ne. induction l as [|x l IH]; [reflexivity|].
  cbn [combine map fst snd]. rewrite Z.eqb_refl. cbn [negb].
  rewrite count_occ_cons_neq by discriminate. exact IH.
Qed.

Lemma ge_1_true_div_zero (b : Z) : ge_1 (true_div 0 b) = false.
Proof.
  unfold true_div. destruct (b =? 0); [reflexivity|].
  cbn [ge_1]. destruct b as [|pb|pb]; reflexivity.
Qed.

Lemma ge_1_true_div_neg (c b : Z) : 0 <= c -> b < 0 -> ge_1 (true_div c b) = false.
Proof.
  intros Hc Hb. unfold true_div.
  destruct (b =? 0) eqn:E; [apply Z.eqb_eq in E; lia|].
  cbn [ge_1]. destruct (Qle_bool 1 (inject_Z c / inject_Z b)) eqn:Hq; [|reflexivity].
  exfalso. apply Qle_bool_iff in Hq.
  destruct b as [|pb|pb]; try lia.
  unfold Qle, Qdiv, Qinv, Qmult, inject_Z in Hq. simpl in Hq. lia.
Qed.

Lemma ge_1_true_div_by_zero (c : Z) :
  0 <= c -> (ge_1 (true_div c 0) = true <-> 0 < c).
Proof.
  intros Hc. unfold true_div. cbn [Z.eqb].
  destruct (c =? 0) eqn:E; cbn [ge_1].
  - apply Z.eqb_eq in E. split; [discriminate | lia].
  - apply Z.eqb_neq in E. split; [lia | reflexivity].
Qed.

(** ** Failures, counting and the tables along a run *)

Section MoreProperties.

Context {env : Backend}.

(** X4.  When the classifier answers with a number of predictions other
    than the number of labels, a run with a positive budget fails in its
    first iteration, before alpha or any table is touched: the store is
    left exactly as it was. *)
Theorem forward_batch_mismatch (w : World) :
  0 < steps (attack w) ->
  length (pre_at w) <> length (caller_labels w) ->
  forward w =
  (Raise (if ((length (pre_at w) =? 1)
              || (length (caller_labels w) =? 1))%nat
          then ValueError else RuntimeError), w).
Proof.
  intros Hs Hlen. unfold forward, bind, gets.
  destruct (Z.to_nat (steps (attack w))) as [|n] eqn:Hn; [lia|].
  cbn [loop]. unfold bind. rewrite step_spec.
  apply Nat.eqb_neq in Hlen. rewrite Hlen. reflexivity.
Qed.

(** X5.  The threshold test compares the number of attacked images with
    the configured [batch_size], not with the size of the batch: for a
    positive [batch_size] it holds exactly when that number reaches
    [batch_size]; for [batch_size = 0] exactly when at least one image is
    attacked; never for a negative [batch_size], and never when no image
    is attacked. *)
Theorem threshold_counts_against_batch_size (w : World) :
  let c := n_success (attack w) (pre_at w) (caller_labels w) in
  let bs := batch_size (attack w) in
  0 <= c /\
  (0 < bs -> (succeeds w = true <-> bs <= c)) /\
  (bs = 0 -> (succeeds w = true <-> 0 < c)) /\
  (bs < 0 -> succeeds w = false) /\
  (c = 0 -> succeeds w = false).
Proof.
  intros c bs.
  assert (Hrate : success_rate (attack w) (pre_at w) (caller_labels w)
                  = true_div c bs).
  { unfold success_rate, c, n_success, bs. destruct (targeted (attack w)); reflexivity. }
  assert (Hc : 0 <= c).
  { unfold c, n_success. destruct (targeted (attack w)); apply tsum_nonneg. }
  unfold succeeds. rewrite Hrate.
  split; [exact Hc|]. split; [|split; [|split]].
  - intros Hb. apply ge_1_true_div. exact Hb.
  - intros ->. apply ge_1_true_div_by_zero. exact Hc.
  - intros Hb. apply ge_1_true_div_neg; assumption.
  - intros ->. apply ge_1_true_div_zero.
Qed.

(** X6.  A step moves an element that is inside the factor range by at
    most one unit. *)
Theorem step_moves_at_most_one (w : World) (images : Tensor)
    (labels : list Z) r w' :
  step images labels w = (Ok r, w') ->
  forall k j x x',
    nth_error (data (q_get (q_tables (attack w)) k)) j = Some x ->
    nth_error (data (q_get (q_tables (attack w')) k)) j = Some x' ->
    (fst (factor_range (attack w)) <= x)%Q ->
    (x <= snd (factor_range (attack w)))%Q ->
    (x - 1 <= x' /\ x' <= x + 1)%Q.
Proof.
  intros Hstep k j x x' Hx Hx' Hlo Hhi.
  rewrite step_gen in Hstep. simpl in Hstep.
  destruct (length _ =? length _)%nat; [|discriminate].
  injection Hstep as _ <-.
  assert (Hnew : q_get (q_tables (next_attack (classifier w) images labels (attack w))) k
                 = sign_step (fst (factor_range (attack w)))
                             (snd (factor_range (attack w)))
                             (table_grad (classifier w) images labels (attack w) k)
                             (q_get (q_tables (attack w)) k))
    by (destruct k; reflexivity).
  cbn [attack] in Hx'. rewrite Hnew, sign_step_nth, Hx in Hx'.
  injection Hx' as <-.
  pose proof (torch_sign_range
                (table_grad (classifier w) images labels (attack w) k j))
    as (Hs1 & Hs2).
  apply clamp_near; lra.
Qed.

(** X9.  When the factor range is empty or a single point
    ([max_factor <= min_factor], that is [q_size <= 5]) a step sets every
    table element to [max_factor], whatever the gradient: the attack
    cannot move its tables. *)
Theorem step_collapsed_range (w : World) (images : Tensor)
    (labels : list Z) r w' :
  step images labels w = (Ok r, w') ->
  (snd (factor_range (attack w)) <= fst (factor_range (attack w)))%Q ->
  forall k, Forall (fun x => (x == snd (factor_range (attack w)))%Q)
                   (data (q_get (q_tables (attack w')) k)).
Proof.
  intros Hstep Hle k.
  rewrite step_gen in Hstep. simpl in Hstep.
  destruct (length _ =? length _)%nat; [|discriminate].
  injection Hstep as _ <-.
  apply Forall_forall. intros x Hin.
  assert (Hnew : q_get (q_tables (next_attack (classifier w) images labels (attack w))) k
                 = sign_step (fst (factor_range (attack w)))
                             (snd (factor_range (attack w)))
                             (table_grad (classifier w) images labels (attack w) k)
                             (q_get (q_tables (attack w)) k))
    by (destruct k; reflexivity).
  cbn [attack] in Hin. rewrite Hnew in Hin.
  apply sign_step_In in Hin. destruct Hin as (j & x0 & _ & ->).
  apply clamp_collapsed. exact Hle.
Qed.

(** An invariant of the table elements that every sign step keeps holds
    after any number of completed iterations. *)
Lemma tables_after_inv (P : nat -> Q -> Prop) (w : World) :
  (forall k x, In x (data (q_get (q_tables (attack w)) k)) -> P O x) ->
  (forall n x g, P n x ->
     P (S n) (clamp (fst (factor_range (attack w)))
                    (snd (factor_range (attack w)))
                    (x - torch_sign g)%Q)) ->
  forall n,
    (forall j, (j < n)%nat ->
       length (pre_at (after j w)) = length (caller_labels w)) ->
    forall k x, In x (data (q_get (q_tables (attack (after n w))) k)) -> P n x.
Proof.
  intros H0 Hstep. induction n as [|n IH]; intros Hlens k x Hin.
  - apply H0 with k. exact Hin.
  - rewrite after_S_ok in Hin by (apply Hlens; lia).
    destruct (after_frame n w) as (_ & _ & _ & _ & _ & _ & _ & _ & Hfr & _).
    assert (Hnew : q_get (q_tables (next_attack (classifier w) (caller_images w)
                                     (caller_labels w) (attack (after n w)))) k
                   = sign_step (fst (factor_range (attack w)))
                               (snd (factor_range (attack w)))
                               (table_grad (classifier w) (caller_images w)
                                  (caller_labels w) (attack (after n w)) k)
                               (q_get (q_tables (attack (after n w))) k)).
    { rewrite <- Hfr. destruct k; reflexivity. }
    rewrite Hnew in Hin. apply sign_step_In in Hin.
    destruct Hin as (j & x0 & Hx0 & ->).
    apply Hstep. apply (IH (fun j' Hj' => Hlens j' (Nat.lt_lt_succ_r _ _ Hj')) k).
    eapply nth_error_In. exact Hx0.
Qed.

Lemma init_fresh (h wd st bs bk : Z) (q : Q) (tg : bool) (a : InfoDrop) :
  InfoDrop_init h wd st bs bk q tg = Ok a ->
  steps a = st /\ factor_range a = (5%Q, q) /\
  forall k x, In x (data (q_get (q_tables a) k)) -> x = q.
Proof.
  intros Hinit.
  destruct (init_accepted _ _ _ _ _ _ _ _ Hinit) as (Hst & Hbk & Hbs).
  rewrite init_Ok in Hinit by assumption. cbv zeta in Hinit.
  injection Hinit as <-.
  split; [reflexivity|]. split; [reflexivity|].
  intros k x Hin.
  destruct k; cbn [q_get q_tables q_y q_cb q_cr full data] in Hin;
    apply repeat_spec in Hin; exact Hin.
Qed.

Lemma forward_steps_run (w : World) imgs pre s w' :
  forward w = (Ok (imgs, pre, s), w') ->
  exists m, w' = after m w /\ (1 <= m)%nat /\
    (forall j, (j < m)%nat ->
       length (pre_at (after j w)) = length (caller_labels w)) /\
    Z.of_nat m = match s with
                 | Some i => i + 1
                 | None => steps (attack w)
                 end /\
    0 < steps (attack w).
Proof.
  intros Hrun. destruct (forward_Ok _ _ _ _ _ Hrun) as (m & Hm).
  pose proof (run_of_pos _ _ _ _ _ _ _ Hm) as Hpos.
  destruct Hm as (Hw' & Hmn & Hlens & _ & Hs).
  exists m. split; [exact Hw'|]. split; [exact Hpos|]. split; [exact Hlens|].
  split; [|lia].
  destruct s as [i|].
  - destruct Hs as (j & -> & -> & _). lia.
  - destruct Hs as (-> & _). lia.
Qed.

(** X8.  When [q_size] is an integer, every table element of the state a
    run on a freshly constructed attack returns is an integer. *)
Theorem tables_stay_integral (h wd st bs bk : Z) (q : Q) (tg : bool)
    (a : InfoDrop) (w : World) imgs pre s w' :
  InfoDrop_init h wd st bs bk q tg = Ok a -> attack w = a ->
  is_int q ->
  forward w = (Ok (imgs, pre, s), w') ->
  forall k x, In x (data (q_get (q_tables (attack w')) k)) -> is_int x.
Proof.
  intros Hinit Hw Hq Hrun k x Hin.
  destruct (init_fresh _ _ _ _ _ _ _ _ Hinit) as (_ & Hfr & Htab).
  rewrite <- Hw in Htab, Hfr.
  destruct (forward_steps_run _ _ _ _ _ Hrun) as (n & -> & _ & Hlens & _).
  apply (tables_after_inv (fun _ x => is_int x) w) with (n := n) (k := k);
    try assumption.
  - intros k0 x0 Hin0. rewrite (Htab k0 x0 Hin0). exact Hq.
  - intros _ x0 g Hx0. rewrite Hfr. cbn [fst snd].
    apply is_int_clamp; [exists 5; reflexivity | exact Hq |].
    apply is_int_sub; [exact Hx0 | apply torch_sign_is_int].
Qed.

Lemma same_shapes_refl (a : InfoDrop) : same_shapes a a.
Proof. intros k. split; reflexivity. Qed.

Lemma same_shapes_trans (a1 a2 a3 : InfoDrop) :
  same_shapes a1 a2 -> same_shapes a2 a3 -> same_shapes a1 a3.
Proof.
  intros H12 H23 k. destruct (H12 k) as (E1 & E2). destruct (H23 k) as (E3 & E4).
  split; congruence.
Qed.

Lemma step_same_shapes (images : Tensor) (labels : list Z) (w : World) :
  same_shapes (attack w) (attack (snd (step images labels w))).
Proof.
  rewrite step_gen. simpl.
  destruct (length _ =? length _)%nat; simpl; [|apply same_shapes_refl].
  intros k. destruct k; apply sign_step_shape.
Qed.

Lemma loop_same_shapes (n : nat) :
  forall i images labels last w,
    same_shapes (attack w) (attack (snd (loop n i images labels last w))).
Proof.
  induction n as [|n IH]; intros i images labels last w.
  - cbn [loop]. destruct last as [[rgb p0]|]; apply same_shapes_refl.
  - cbn [loop]. unfold bind.
    pose proof (step_same_shapes images labels w) as Hstep.
    destruct (step images labels w) as [[[[rgb p0] suc]|e] w1]; simpl in Hstep.
    + destruct (ge_1 suc).
      * exact Hstep.
      * eapply same_shapes_trans; [exact Hstep | apply IH].
    + exact Hstep.
Qed.

(** X10.  Whatever the run does, return or raise, each table of the
    attack object keeps its shape and its number of elements; a table
    whose data matched its shape still does. *)
Theorem forward_keeps_shapes (w : World) :
  forall k,
    shape (q_get (q_tables (attack (snd (forward w)))) k)
      = shape (q_get (q_tables (attack w)) k) /\
    length (data (q_get (q_tables (attack (snd (forward w)))) k))
      = length (data (q_get (q_tables (attack w)) k)) /\
    (well_formed (q_get (q_tables (attack w)) k) ->
     well_formed (q_get (q_tables (attack (snd (forward w)))) k)).
Proof.
  intros k.
  assert (H : same_shapes (attack w) (attack (snd (forward w)))).
  { unfold forward, bind, gets. apply loop_same_shapes. }
  destruct (H k) as (Hs & Hl). split; [exact Hs|]. split; [exact Hl|].
  unfold well_formed. rewrite Hs, Hl. auto.
Qed.


(** X13.  The predictions a run returns are as many as the labels it was
    given. *)
Theorem forward_predictions_align (w : World) imgs pre s w' :
  forward w = (Ok (imgs, pre, s), w') ->
  length pre = length (caller_labels w).
Proof.
  intros Hrun.
  destruct (forward_Ok _ _ _ _ _ Hrun) as (m & _ & Hmn & Hlens & _ & Hs).
  destruct s as [i|].
  - destruct Hs as (j & -> & _ & _ & _ & ->). apply Hlens. lia.
  - destruct Hs as (-> & _ & Hlast).
    destruct (Z.to_nat (steps (attack w))) as [|j].
    + destruct Hlast as (rgb & Heq & _). discriminate.
    + destruct Hlast as (_ & ->). apply Hlens. lia.
Qed.

End MoreProperties.

(** ** [Normalize] *)

Lemma numel_app (a b : list nat) : numel (a ++ b) = (numel a * numel b)%nat.
Proof.
  unfold numel. induction a as [|x a IH]; simpl; [lia|].
  rewrite IH. lia.
Qed.

Lemma numel_ones (k : nat) : numel (repeat 1%nat k) = 1%nat.
Proof. unfold numel. induction k as [|k IH]; simpl; [reflexivity | lia]. Qed.

Lemma numel_pad4 (s : list nat) : numel (pad4 s) = numel s.
Proof. unfold pad4. rewrite numel_app, numel_ones. lia. Qed.

Lemma pad4_length (s : list nat) : length (pad4 s) = Nat.max 4 (length s).
Proof. unfold pad4. rewrite length_app, repeat_length. lia. Qed.

(** The channel dimension of the padded shape, read off the input shape. *)
Lemma channel_of_pad4 (s : list nat) :
  dim_from_end (pad4 s) 3
  = if (length s <? 3)%nat then 1%nat else dim_from_end s 3.
Proof.
  unfold dim_from_end. rewrite pad4_length. unfold pad4.
  destruct (length s <? 3)%nat eqn:E.
  - apply Nat.ltb_lt in E.
    rewrite app_nth1 by (rewrite repeat_length; lia).
    apply nth_repeat_lt. lia.
  - apply Nat.ltb_ge in E.
    rewrite app_nth2 by (rewrite repeat_length; lia).
    rewrite repeat_length. f_equal. lia.
Qed.

Lemma last3_split (l : list nat) :
  (3 <= length l)%nat ->
  l = lead_dims l ++ [dim_from_end l 3; dim_from_end l 2; dim_from_end l 1].
Proof.
  intros Hlen. unfold lead_dims, dim_from_end.
  set (k := (length l - 3)%nat).
  assert (Hsk : length (skipn k l) = 3%nat) by (rewrite length_skipn; lia).
  assert (H3 : nth k l 0%nat = nth 0 (skipn k l) 0%nat)
    by (rewrite nth_skipn; f_equal; lia).
  assert (H2 : nth (length l - 2) l 0%nat = nth 1 (skipn k l) 0%nat)
    by (rewrite nth_skipn; f_equal; lia).
  assert (H1 : nth (length l - 1) l 0%nat = nth 2 (skipn k l) 0%nat)
    by (rewrite nth_skipn; f_equal; lia).
  rewrite H3, H2, H1.
  rewrite <- (firstn_skipn k l) at 1. f_equal.
  destruct (skipn k l) as [|a [|b [|c [|d r]]]]; try discriminate.
  reflexivity.
Qed.

Lemma numel_last3 (l : list nat) :
  (3 <= length l)%nat ->
  numel l = (numel (lead_dims l)
             * (dim_from_end l 3 * (dim_from_end l 2 * dim_from_end l 1)))%nat.
Proof.
  intros Hlen. rewrite (last3_split l Hlen) at 1.
  rewrite numel_app. unfold numel at 2. simpl. lia.
Qed.

Lemma flat_map_length_const {A C : Type} (f : A -> list C) (l : list A) (c : nat) :
  (forall x, In x l -> length (f x) = c) ->
  length (flat_map f l) = (length l * c)%nat.
Proof.
  induction l as [|x l IH]; intros Hc; simpl; [reflexivity|].
  rewrite length_app, IH, Hc.
  - reflexivity.
  - left. reflexivity.
  - intros x0 Hx0. apply Hc. right. exact Hx0.
Qed.

Lemma plane_length (hw p : nat) (l : list Q) :
  ((p + 1) * hw <= length l)%nat ->
  length (firstn hw (skipn (p * hw) l)) = hw.
Proof.
  intros Hlen. rewrite length_firstn, length_skipn. nia.
Qed.

Lemma Normalize_forward_inv (n : Normalize) (t out : Tensor) :
  Normalize_forward n t = Ok out ->
  length (mean n) = 3%nat /\ length (std n) = 3%nat /\
  let s := pad4 (shape t) in
  let hw := (dim_from_end s 2 * dim_from_end s 1)%nat in
  (dim_from_end s 3 = 3%nat /\
   out = {| shape := s;
            data := imap_from (fun j x => norm_elem n ((j / hw) mod 3) x)
                              0 (data t) |})
  \/
  (dim_from_end s 3 = 1%nat /\
   out = {| shape := lead_dims s ++ [3%nat; dim_from_end s 2; dim_from_end s 1];
            data := flat_map
                      (fun p =>
                         let plane := firstn hw (skipn (p * hw) (data t)) in
                         map (norm_elem n 0) plane ++ map (norm_elem n 1) plane
                         ++ map (norm_elem n 2) plane)
                      (seq 0 (numel (lead_dims s))) |}).
Proof.
  unfold Normalize_forward.
  destruct (length (mean n) =? 3)%nat eqn:Em; [|discriminate].
  destruct (length (std n) =? 3)%nat eqn:Es; [|discriminate].
  apply Nat.eqb_eq in Em. apply Nat.eqb_eq in Es.
  cbn [andb negb]. cbv zeta.
  destruct (dim_from_end (pad4 (shape t)) 3 =? 3)%nat eqn:E3.
  - intros H. injection H as <-. apply Nat.eqb_eq in E3.
    split; [exact Em|]. split; [exact Es|]. left. split; [exact E3 | reflexivity].
  - destruct (dim_from_end (pad4 (shape t)) 3 =? 1)%nat eqn:E1; [|discriminate].
    intros H. injection H as <-. apply Nat.eqb_eq in E1.
    split; [exact Em|]. split; [exact Es|]. right. split; [exact E1 | reflexivity].
Qed.

(** X14.  [Normalize.forward] accepts an input exactly when both buffers
    hold three numbers and the input has fewer than three dimensions or a
    third-from-last dimension of 1 or 3; otherwise it fails with
    [RuntimeError] and with nothing else. *)
Theorem Normalize_forward_accepts (n : Normalize) (t : Tensor) :
  ((exists out, Normalize_forward n t = Ok out)
   <-> length (mean n) = 3%nat /\ length (std n) = 3%nat /\
       ((length (shape t) < 3)%nat \/ dim_from_end (shape t) 3 = 1%nat
        \/ dim_from_end (shape t) 3 = 3%nat)) /\
  (forall e, Normalize_forward n t = Raise e -> e = RuntimeError).
Proof.
  split.
  - split.
    + intros (out & Hout).
      destruct (Normalize_forward_inv _ _ _ Hout) as (Hm & Hs & Hc).
      split; [exact Hm|]. split; [exact Hs|].
      cbv zeta in Hc. rewrite channel_of_pad4 in Hc.
      destruct (length (shape t) <? 3)%nat eqn:E.
      * left. apply Nat.ltb_lt. exact E.
      * right. destruct Hc as [(Hc & _)|(Hc & _)]; [right | left]; exact Hc.
    + intros (Hm & Hs & Hc). unfold Normalize_forward.
      rewrite Hm, Hs. cbn [Nat.eqb andb negb]. cbv zeta.
      rewrite channel_of_pad4.
      destruct (length (shape t) <? 3)%nat eqn:E.
      * cbn [Nat.eqb]. eexists. reflexivity.
      * apply Nat.ltb_ge in E.
        destruct Hc as [Hc|[Hc|Hc]]; [lia| |]; rewrite Hc; cbn [Nat.eqb];
          eexists; reflexivity.
  - intros e. unfold Normalize_forward.
    destruct (negb _); [intros H; injection H as <-; reflexivity|].
    cbv zeta. destruct (_ =? 3)%nat; [discriminate|].
    destruct (_ =? 1)%nat; [discriminate|].
    intros H. injection H as <-. reflexivity.
Qed.

(** X15.  The output of [Normalize.forward] always has three channels and
    the rank of the input raised to at least 4 (a plain [(H, W)] image
    comes back as [(1, 3, H, W)]); when the input holds as many elements as
    its shape says, so does the output. *)
Theorem Normalize_forward_shape (n : Normalize) (t out : Tensor) :
  Normalize_forward n t = Ok out ->
  length (shape out) = Nat.max 4 (length (shape t)) /\
  dim_from_end (shape out) 3 = 3%nat /\
  dim_from_end (shape out) 2 = dim_from_end (pad4 (shape t)) 2 /\
  dim_from_end (shape out) 1 = dim_from_end (pad4 (shape t)) 1 /\
  lead_dims (shape out) = lead_dims (pad4 (shape t)) /\
  (well_formed t -> well_formed out).
Proof.
  intros Hout.
  destruct (Normalize_forward_inv _ _ _ Hout) as (_ & _ & Hc). cbv zeta in Hc.
  pose proof (pad4_length (shape t)) as Hlen.
  assert (H3 : (3 <= length (pad4 (shape t)))%nat) by lia.
  destruct Hc as [(HC & ->)|(HC & ->)]; cbn [shape data].
  - split; [exact Hlen|]. split; [exact HC|].
    split; [reflexivity|]. split; [reflexivity|]. split; [reflexivity|].
    unfold well_formed. cbn [shape data]. intros Hwf.
    rewrite imap_from_length, numel_pad4. exact Hwf.
  - set (s := pad4 (shape t)) in *.
    set (H := dim_from_end s 2). set (W := dim_from_end s 1).
    assert (Hl : length (lead_dims s) = (length s - 3)%nat).
    { unfold lead_dims. rewrite length_firstn. lia. }
    assert (Hlen' : length (lead_dims s ++ [3%nat; H; W]) = length s).
    { rewrite length_app, Hl. simpl. lia. }
    assert (Hlead : lead_dims (lead_dims s ++ [3%nat; H; W]) = lead_dims s).
    { unfold lead_dims at 1. rewrite Hlen', <- Hl.
      rewrite firstn_app, firstn_all, Nat.sub_diag. simpl. apply app_nil_r. }
    assert (Hd : forall i, (1 <= i <= 3)%nat ->
               dim_from_end (lead_dims s ++ [3%nat; H; W]) i
               = nth (3 - i) [3%nat; H; W] 0%nat).
    { intros i Hi. unfold dim_from_end. rewrite Hlen'.
      rewrite app_nth2 by lia. f_equal. lia. }
    split; [rewrite Hlen'; exact Hlen|].
    split; [rewrite Hd by lia; reflexivity|].
    split; [rewrite Hd by lia; reflexivity|].
    split; [rewrite Hd by lia; reflexivity|].
    split; [exact Hlead|].
    unfold well_formed. cbn [shape data]. intros Hwf.
    rewrite <- numel_pad4 in Hwf. fold s in Hwf.
    rewrite (numel_last3 s H3), HC in Hwf. fold H W in Hwf.
    rewrite numel_app.
    rewrite flat_map_length_const with (c := (3 * (H * W))%nat).
    + rewrite length_seq.
      change (numel [3%nat; H; W]) with (3 * (H * (W * 1)))%nat.
      rewrite Nat.mul_1_r. reflexivity.
    + intros p Hp. apply in_seq in Hp.
      rewrite !length_app, !length_map.
      rewrite plane_length by nia. lia.
Qed.




Section ReturnedPredictions.

Context {env : Backend}.

Lemma clamp_id (lo hi x : Q) :
  (lo <= x)%Q -> (x <= hi)%Q -> clamp lo hi x = x.
Proof.
  intros Hlo Hhi. unfold clamp.
  assert (Hmax : Qmax x lo = x).
  { unfold Qmax, GenericMinMax.gmax.
    destruct (x ?= lo)%Q eqn:E; try reflexivity.
    apply Qlt_alt in E. lra. }
  rewrite Hmax. unfold Qmin, GenericMinMax.gmin.
  destruct (x ?= hi)%Q eqn:E; try reflexivity.
  apply Qgt_alt in E. lra.
Qed.

Lemma torch_clamp_id (lo hi : Q) (t : Tensor) :
  in_range lo hi t -> torch_clamp t lo hi = t.
Proof.
  unfold in_range, torch_clamp, tmap. destruct t as [sh d]. cbn [shape data].
  intros Hall. f_equal.
  induction d as [|x d IH]; [reflexivity|].
  inversion Hall as [|x' d' (Hlo & Hhi) Hd]; subst.
  cbn [map]. rewrite clamp_id by assumption. rewrite IH by assumption.
  reflexivity.
Qed.

(** X18.  The predictions [forward] returns are the classifier's answer on
    the reconstruction before it is clamped, and the returned batch is
    that reconstruction clamped; they are the classifier's answer on the
    returned batch whenever no pixel of the reconstruction left
    [[0, 255]]. *)
Theorem forward_predictions_from_unclamped (w : World) imgs pre s w' :
  forward w = (Ok (imgs, pre, s), w') ->
  exists rgb,
    imgs = torch_clamp rgb 0 255 /\
    pre = torch_max_1 (model (classifier w) rgb) /\
    (in_range 0 255 rgb ->
     imgs = rgb /\ pre = torch_max_1 (model (classifier w) imgs)).
Proof.
  intros Hrun.
  destruct (forward_Ok _ _ _ _ _ Hrun) as (m & _ & _ & _ & _ & Hs).
  assert (Hlast : exists j, imgs = torch_clamp (rgb_at (after j w)) 0 255 /\
                            pre = pre_at (after j w)).
  { destruct s as [i|].
    - destruct Hs as (j & _ & _ & _ & Hi & Hp). exists j. split; assumption.
    - destruct Hs as (_ & _ & Hlast).
      destruct (Z.to_nat (steps (attack w))) as [|j].
      + destruct Hlast as (rgb & Heq & _). discriminate.
      + exists j. exact Hlast. }
  destruct Hlast as (j & -> & ->).
  destruct (after_frame j w) as (_ & _ & Hc & _).
  exists (rgb_at (after j w)). split; [reflexivity|].
  assert (Hpre : pre_at (after j w)
                 = torch_max_1 (model (classifier w) (rgb_at (after j w)))).
  { unfold pre_at, pre_of, rgb_at. rewrite Hc. reflexivity. }
  split; [exact Hpre|].
  intros Hin. rewrite (torch_clamp_id _ _ _ Hin). split; [reflexivity | exact Hpre].
Qed.

End ReturnedPredictions.

Lemma forward_empty_budget_witness :
  steps (attack (Toy.world (-1) true 0)) <= 0 /\
  forward (Toy.world (-1) true 0)
    = (Raise UnboundLocalError, Toy.world (-1) true 0).
Proof.
  assert (Hs : steps (attack (Toy.world (-1) true 0)) <= 0)
    by (vm_compute; discriminate).
  split; [exact Hs|].
  exact (forward_empty_budget (Toy.world (-1) true 0) Hs).
Defined.

Lemma forward_batch_mismatch_witness :
  0 < steps (attack Toy.mismatched_world) /\
  length (pre_at Toy.mismatched_world)
    <> length (caller_labels Toy.mismatched_world) /\
  forward Toy.mismatched_world = (Raise ValueError, Toy.mismatched_world).
Proof.
  assert (Hs : 0 < steps (attack Toy.mismatched_world)) by reflexivity.
  assert (Hlen : length (pre_at Toy.mismatched_world)
                 <> length (caller_labels Toy.mismatched_world))
    by (vm_compute; discriminate).
  split; [exact Hs|]. split; [exact Hlen|].
  exact (forward_batch_mismatch Toy.mismatched_world Hs Hlen).
Defined.

Lemma step_moves_at_most_one_witness :
  step Toy.image [0] (Toy.world 5 true 0)
    = (Ok (rgb_at (Toy.world 5 true 0), pre_at (Toy.world 5 true 0),
           success_rate (attack (Toy.world 5 true 0))
                        (pre_at (Toy.world 5 true 0)) [0]),
       step_world (Toy.world 5 true 0)) /\
  (7 - 1 <= 6 /\ 6 <= 7 + 1)%Q.
Proof.
  assert (H : step Toy.image [0] (Toy.world 5 true 0)
    = (Ok (rgb_at (Toy.world 5 true 0), pre_at (Toy.world 5 true 0),
           success_rate (attack (Toy.world 5 true 0))
                        (pre_at (Toy.world 5 true 0)) [0]),
       step_world (Toy.world 5 true 0))) by (vm_compute; reflexivity).
  split; [exact H|].
  apply (step_moves_at_most_one _ _ _ _ _ H y O 7%Q 6%Q).
  - reflexivity.
  - vm_compute. reflexivity.
  - vm_compute. discriminate.
  - vm_compute. discriminate.
Defined.

Lemma step_collapsed_range_witness :
  step Toy.image [0] Toy.narrow_world
    = (Ok (rgb_at Toy.narrow_world, pre_at Toy.narrow_world,
           success_rate (attack Toy.narrow_world) (pre_at Toy.narrow_world) [0]),
       step_world Toy.narrow_world) /\
  (snd (factor_range (attack Toy.narrow_world))
   <= fst (factor_range (attack Toy.narrow_world)))%Q /\
  Forall (fun x => (x == 3)%Q)
         (data (q_get (q_tables (attack (step_world Toy.narrow_world))) cr)).
Proof.
  assert (H : step Toy.image [0] Toy.narrow_world
    = (Ok (rgb_at Toy.narrow_world, pre_at Toy.narrow_world,
           success_rate (attack Toy.narrow_world) (pre_at Toy.narrow_world) [0]),
       step_world Toy.narrow_world)) by (vm_compute; reflexivity).
  assert (Hle : (snd (factor_range (attack Toy.narrow_world))
                 <= fst (factor_range (attack Toy.narrow_world)))%Q)
    by (vm_compute; discriminate).
  split; [exact H|]. split; [exact Hle|].
  exact (step_collapsed_range _ _ _ _ _ H Hle cr).
Defined.

Lemma tables_stay_integral_witness :
  forward (Toy.world 5 true 0)
    = (Ok ({| shape := [1; 1; 1; 1]%nat; data := [0; 0; 0]%Q |}, [0], Some 2),
       after 3 (Toy.world 5 true 0)) /\
  is_int 7 /\ is_int 5.
Proof.
  assert (Hinit : InfoDrop_init 1 1 5 1 1 7 true = Ok (Toy.attack_of 5 true))
    by reflexivity.
  assert (H : forward (Toy.world 5 true 0)
    = (Ok ({| shape := [1; 1; 1; 1]%nat; data := [0; 0; 0]%Q |}, [0], Some 2),
       after 3 (Toy.world 5 true 0))) by (vm_compute; reflexivity).
  assert (H7 : is_int 7) by (exists 7; reflexivity).
  split; [exact H|]. split; [exact H7|].
  apply (tables_stay_integral 1 1 5 1 1 7 true (Toy.attack_of 5 true)
           (Toy.world 5 true 0) _ _ _ _ Hinit eq_refl H7 H y).
  vm_compute. left. reflexivity.
Defined.


Lemma forward_predictions_align_witness :
  forward (Toy.world 5 true 0)
    = (Ok ({| shape := [1; 1; 1; 1]%nat; data := [0; 0; 0]%Q |}, [0], Some 2),
       after 3 (Toy.world 5 true 0)) /\
  length [0] = length (caller_labels (Toy.world 5 true 0)).
Proof.
  assert (H : forward (Toy.world 5 true 0)
    = (Ok ({| shape := [1; 1; 1; 1]%nat; data := [0; 0; 0]%Q |}, [0], Some 2),
       after 3 (Toy.world 5 true 0))) by (vm_compute; reflexivity).
  split; [exact H|].
  exact (forward_predictions_align _ _ _ _ _ H).
Defined.

(** In [Toy.world 5 true 0] the returned batch is the clamped one, on
    which the classifier would answer 300, not the returned 0. *)
Lemma forward_predictions_from_unclamped_witness :
  forward (Toy.world 5 true 0)
    = (Ok ({| shape := [1; 1; 1; 1]%nat; data := [0; 0; 0]%Q |}, [0], Some 2),
       after 3 (Toy.world 5 true 0)) /\
  (exists rgb,
     {| shape := [1; 1; 1; 1]%nat; data := [0; 0; 0]%Q |} = torch_clamp rgb 0 255 /\
     [0] = Toy.first_pixel rgb) /\
  Toy.first_pixel {| shape := [1; 1; 1; 1]%nat; data := [0; 0; 0]%Q |} = [300].
Proof.
  assert (H : forward (Toy.world 5 true 0)
    = (Ok ({| shape := [1; 1; 1; 1]%nat; data := [0; 0; 0]%Q |}, [0], Some 2),
       after 3 (Toy.world 5 true 0))) by (vm_compute; reflexivity).
  split; [exact H|]. split; [|reflexivity].
  destruct (forward_predictions_from_unclamped _ _ _ _ _ H)
    as (rgb & Himg & Hpre & _).
  exists rgb. split; [exact Himg | exact Hpre].
Defined.

Lemma Normalize_forward_shape_witness :
  Normalize_forward Toy.norm_layer Toy.rgb_pixels
    = Ok {| shape := [1; 3; 1; 2]%nat;
            data := [510 # 510; -510 # 510; 3060 # 1020;
                     -1020 # 1020; 255 # 255; 51 # 255]%Q |} /\
  well_formed Toy.rgb_pixels /\
  well_formed {| shape := [1; 3; 1; 2]%nat;
                 data := [510 # 510; -510 # 510; 3060 # 1020;
                          -1020 # 1020; 255 # 255; 51 # 255]%Q |}.
Proof.
  assert (H : Normalize_forward Toy.norm_layer Toy.rgb_pixels
    = Ok {| shape := [1; 3; 1; 2]%nat;
            data := [510 # 510; -510 # 510; 3060 # 1020;
                     -1020 # 1020; 255 # 255; 51 # 255]%Q |})
    by (vm_compute; reflexivity).
  assert (Hwf : well_formed Toy.rgb_pixels) by reflexivity.
  split; [exact H|]. split; [exact Hwf|].
  destruct (Normalize_forward_shape _ _ _ H) as (_ & _ & _ & _ & _ & Hout).
  exact (Hout Hwf).
Defined.


(** * The early stop, the returned triple and the update, by count and value *)

(** C8, amended.  The constructor looks at [height] only through
    [ceil(height / block_size)] and never at [width]: a height or width
    that [block_size] does not divide gives the outcome, tables included,
    of any other dimensions with the same quotient rounded up, the next
    multiples of [block_size] among them. *)
Theorem init_ignores_alignment (h h' wd wd' st bs bk : Z) (q : Q) (tg : bool) :
  np_ceil_div h bk = np_ceil_div h' bk ->
  same_outcome (InfoDrop_init h wd st bs bk q tg)
               (InfoDrop_init h' wd' st bs bk q tg).
Proof.
  intros Hceil. unfold InfoDrop_init, block_n. rewrite Hceil.
  destruct (st =? 0); [reflexivity|].
  destruct (bk =? 0); [reflexivity|].
  destruct (_ || _); [reflexivity|].
  cbn [same_outcome q_tables steps targeted batch_size factor_range alpha
       alpha_interval]. repeat split.
Qed.

Lemma init_ignores_alignment_witness :
  np_ceil_div 10 8 = np_ceil_div 16 8 /\
  10 mod 8 <> 0 /\ 12 mod 8 <> 0 /\
  same_outcome (InfoDrop_init 10 12 40 20 8 10 false)
               (InfoDrop_init 16 16 40 20 8 10 false).
Proof.
  assert (Hceil : np_ceil_div 10 8 = np_ceil_div 16 8) by reflexivity.
  split; [exact Hceil|]. split; [discriminate|]. split; [discriminate|].
  exact (init_ignores_alignment 10 16 12 16 40 20 8 10 false Hceil).
Defined.

Section Revised.

Context {env : Backend}.

Lemma n_success_nonneg (a : InfoDrop) (pre labels : list Z) :
  0 <= n_success a pre labels.
Proof. unfold n_success. destruct (targeted a); apply tsum_nonneg. Qed.

Lemma ge_1_reached (a : InfoDrop) (pre labels : list Z) :
  ge_1 (success_rate a pre labels) = true <-> reached a pre labels.
Proof.
  assert (Hrate : success_rate a pre labels
                  = true_div (n_success a pre labels) (batch_size a)).
  { unfold success_rate, n_success. destruct (targeted a); reflexivity. }
  pose proof (n_success_nonneg a pre labels) as Hc.
  rewrite Hrate. unfold reached.
  destruct (Z.lt_trichotomy (batch_size a) 0) as [Hb|[Hb|Hb]].
  - rewrite ge_1_true_div_neg by assumption. split; [discriminate|].
    intros [(H & _)|(H & _)]; lia.
  - rewrite Hb. rewrite ge_1_true_div_by_zero by assumption. split.
    + intros H. right. split; [reflexivity | exact H].
    + intros [(H & _)|(_ & H)]; [lia | exact H].
  - rewrite ge_1_true_div by assumption. split.
    + intros H. left. split; assumption.
    + intros [(_ & H)|(H & _)]; [exact H | lia].
Qed.

Lemma reached_after (w : World) (j : nat) (pre labels : list Z) :
  reached (attack (after j w)) pre labels <-> reached (attack w) pre labels.
Proof.
  destruct (after_frame j w) as (_ & _ & _ & _ & Htg & Hbs & _).
  unfold reached, n_success. rewrite Htg, Hbs. reflexivity.
Qed.

Lemma succeeds_reached (w : World) (j : nat) :
  succeeds (after j w) = true
  <-> reached (attack w) (pre_at (after j w)) (caller_labels w).
Proof.
  destruct (after_frame j w) as (_ & Hl & _).
  unfold succeeds. rewrite ge_1_reached, Hl. apply reached_after.
Qed.

Lemma not_succeeds_reached (w : World) (j : nat) :
  succeeds (after j w) = false
  <-> ~ reached (attack w) (pre_at (after j w)) (caller_labels w).
Proof.
  rewrite <- succeeds_reached. destruct (succeeds (after j w)); split;
    try discriminate; try reflexivity; intros H; exfalso; apply H; reflexivity.
Qed.

Lemma step_Ok_len (w : World) r w1 :
  step (caller_images w) (caller_labels w) w = (Ok r, w1) ->
  length (pre_at w) = length (caller_labels w).
Proof.
  rewrite step_spec.
  destruct (length (pre_at w) =? length (caller_labels w))%nat eqn:E;
    [|discriminate].
  intros _. apply Nat.eqb_eq. exact E.
Qed.

Lemma loop_completes (n : nat) :
  forall i last w,
    (forall j, (j < n)%nat ->
       length (pre_at (after j w)) = length (caller_labels w)) ->
    (0 < n)%nat \/ last <> None ->
    exists r w', loop n i (caller_images w) (caller_labels w) last w
                 = (Ok r, w').
Proof.
  induction n as [|n IH]; intros i last w Hlens Hne.
  - destruct Hne as [Hn|Hlast]; [lia|].
    cbn [loop]. destruct last as [[rgb p0]|]; [|congruence].
    eexists. eexists. reflexivity.
  - cbn [loop]. unfold bind. rewrite step_spec.
    assert (Hlen : length (pre_at w) = length (caller_labels w))
      by (apply (Hlens O); lia).
    pose proof (step_world_ok w Hlen) as Hw1.
    apply Nat.eqb_eq in Hlen. rewrite Hlen. rewrite <- Hw1.
    destruct (ge_1 _).
    + eexists. eexists. reflexivity.
    + destruct (step_world_frame w) as (Hi & Hl & _).
      rewrite <- Hi, <- Hl. apply IH.
      * intros j Hj. rewrite Hl. apply (Hlens (S j)). lia.
      * right. discriminate.
Qed.

(** What a returned triple says, with the threshold as a count. *)
Lemma forward_Ok_reached (w : World) imgs pre st w' :
  forward w = (Ok (imgs, pre, st), w') ->
  let n := Z.to_nat (steps (attack w)) in
  let hit j := reached (attack w) (pre_at (after j w)) (caller_labels w) in
  (0 < n)%nat /\
  exists m, (m < n)%nat /\
    (forall j, (j <= m)%nat ->
       length (pre_at (after j w)) = length (caller_labels w)) /\
    (forall j, (j < m)%nat -> ~ hit j) /\
    imgs = torch_clamp (rgb_at (after m w)) 0 255 /\
    pre = pre_at (after m w) /\
    w' = after (S m) w /\
    match st with
    | Some i => i = Z.of_nat m /\ hit m
    | None => S m = n /\ ~ hit m
    end.
Proof.
  intros Hrun n hit.
  destruct (forward_Ok _ _ _ _ _ Hrun) as (m & Hm).
  pose proof (run_of_pos _ _ _ _ _ _ _ Hm) as Hpos.
  destruct Hm as (Hw' & Hmn & Hlens & Hno & Hst). fold n in Hmn, Hst.
  split; [lia|].
  destruct st as [i|].
  - destruct Hst as (j & -> & -> & Hsuc & Himg & Hpre).
    exists j. split; [lia|]. split; [intros j' Hj'; apply Hlens; lia|].
    split; [intros j' Hj'; apply not_succeeds_reached, Hno; lia|].
    split; [exact Himg|]. split; [exact Hpre|]. split; [exact Hw'|].
    split; [lia | apply succeeds_reached; exact Hsuc].
  - destruct Hst as (-> & Hall & Hlast).
    destruct n as [|j] eqn:Hn; [lia|].
    destruct Hlast as (Himg & Hpre).
    exists j. split; [lia|]. split; [intros j' Hj'; apply Hlens; lia|].
    split; [intros j' Hj'; apply not_succeeds_reached, Hall; lia|].
    split; [exact Himg|]. split; [exact Hpre|]. split; [exact Hw'|].
    split; [reflexivity | apply not_succeeds_reached, Hall; lia].
Qed.

(** C3, amended.  A run that returns hands back the reconstruction of
    its last iteration clamped to [[0, 255]], the predictions the
    classifier gave on that reconstruction before clamping, and a step
    indicator: [i] when step [i] is the first of the budget at which the
    number of attacked images reaches [batch_size], [None] when no step of
    the budget does.  A budget in which every iteration completes without
    reaching the threshold ends in that [None] return, not in an error. *)
Theorem forward_returns_triple (w : World) :
  let n := Z.to_nat (steps (attack w)) in
  let hit j := reached (attack w) (pre_at (after j w)) (caller_labels w) in
  (forall imgs pre st w',
     forward w = (Ok (imgs, pre, st), w') ->
     exists rgb,
       imgs = torch_clamp rgb 0 255 /\
       pre = torch_max_1 (model (classifier w) rgb) /\
       match st with
       | Some i =>
           exists j, i = Z.of_nat j /\ (j < n)%nat /\
             hit j /\ (forall j', (j' < j)%nat -> ~ hit j') /\
             rgb = rgb_at (after j w)
       | None =>
           (forall j, (j < n)%nat -> ~ hit j) /\
           rgb = rgb_at (after (n - 1) w)
       end) /\
  ((0 < n)%nat ->
   (forall j, (j < n)%nat ->
      (exists r, step (caller_images w) (caller_labels w) (after j w)
                 = (Ok r, after (S j) w)) /\ ~ hit j) ->
   exists imgs pre, forward w = (Ok (imgs, pre, None), after n w)).
Proof.
  intros n hit. split.
  - intros imgs pre st w' Hrun.
    destruct (forward_Ok_reached _ _ _ _ _ Hrun)
      as (Hn & m & Hm & _ & Hno & Himg & Hpre & _ & Hst).
    fold n in Hn, Hm, Hst. fold hit in Hno, Hst.
    exists (rgb_at (after m w)). split; [exact Himg|]. split.
    + rewrite Hpre. unfold pre_at, pre_of, rgb_at.
      destruct (after_frame m w) as (_ & _ & Hc & _). rewrite Hc. reflexivity.
    + destruct st as [i|].
      * destruct Hst as (-> & Hhit). exists m. repeat split; assumption.
      * destruct Hst as (Hmn & Hlast). split.
        -- intros j Hj. destruct (Nat.eq_dec j m) as [->|Hne];
             [exact Hlast | apply Hno; lia].
        -- replace (n - 1)%nat with m by lia. reflexivity.
  - intros Hn Hall.
    assert (Hlens : forall j, (j < n)%nat ->
              length (pre_at (after j w)) = length (caller_labels w)).
    { intros j Hj. destruct (Hall j Hj) as ((r & Hstep) & _).
      destruct (after_frame j w) as (Hi & Hl & _).
      rewrite <- Hi, <- Hl in Hstep. rewrite <- Hl.
      eapply step_Ok_len. exact Hstep. }
    destruct (loop_completes n 0 None w Hlens (or_introl Hn))
      as ([[imgs pre] st] & w' & Hrun).
    assert (Hfwd : forward w = (Ok (imgs, pre, st), w')) by exact Hrun.
    destruct (forward_Ok_reached _ _ _ _ _ Hfwd)
      as (_ & m & Hm & _ & _ & _ & _ & Hw' & Hst).
    fold n in Hm, Hst. fold hit in Hst.
    destruct st as [i|].
    + destruct Hst as (_ & Hhit). exfalso.
      destruct (Hall m Hm) as (_ & Hnot). apply Hnot. exact Hhit.
    + destruct Hst as (Hmn & _). exists imgs, pre.
      rewrite Hfwd, Hw', Hmn. reflexivity.
Qed.

Lemma Forall2_eq_refl (l : list Z) : Forall2 (fun p x => p = x) l l.
Proof. induction l; constructor; auto. Qed.

(** C2, amended.  A run returns at step [i] exactly when [i] is the
    first step of the budget at which the number of attacked images
    (predictions equal to their labels for a targeted attack, different
    from them for an untargeted one) reaches the configured [batch_size],
    and returns [None] when no step does.  For a batch of exactly
    [batch_size > 0] images that is: when every image of the batch is
    attacked; there a targeted run that returns, against a classifier
    always answering the target labels, returns them with step 0. *)
Theorem early_stop_iff_count_reaches_batch_size (w : World) imgs pre st w' :
  forward w = (Ok (imgs, pre, st), w') ->
  let n := Z.to_nat (steps (attack w)) in
  let tg := targeted (attack w) in
  let labels := caller_labels w in
  let hit j := reached (attack w) (pre_at (after j w)) labels in
  let whole j := batch_success tg (pre_at (after j w)) labels in
  match st with
  | Some i =>
      exists j, i = Z.of_nat j /\ (j < n)%nat /\ pre = pre_at (after j w) /\
        hit j /\ forall j', (j' < j)%nat -> ~ hit j'
  | None => forall j, (j < n)%nat -> ~ hit j
  end /\
  (0 < batch_size (attack w) ->
   batch_size (attack w) = Z.of_nat (length labels) ->
   match st with
   | Some i =>
       exists j, i = Z.of_nat j /\ whole j /\
         forall j', (j' < j)%nat -> ~ whole j'
   | None => forall j, (j < n)%nat -> ~ whole j
   end /\
   (tg = true ->
    (forall a, pre_of (classifier w) a (caller_images w) = labels) ->
    st = Some 0 /\ pre = labels)).
Proof.
  intros Hrun n tg labels hit whole.
  destruct (forward_Ok_reached _ _ _ _ _ Hrun)
    as (Hn & m & Hm & Hlens & Hno & _ & Hpre & _ & Hst).
  fold n in Hn, Hm, Hst. fold labels in Hlens, Hno, Hst. fold hit in Hno, Hst.
  assert (Hcount :
    match st with
    | Some i =>
        exists j, i = Z.of_nat j /\ (j < n)%nat /\ pre = pre_at (after j w) /\
          hit j /\ forall j', (j' < j)%nat -> ~ hit j'
    | None => forall j, (j < n)%nat -> ~ hit j
    end).
  { destruct st as [i|].
    - destruct Hst as (-> & Hhit). exists m. repeat split; assumption.
    - destruct Hst as (Hmn & Hlast). intros j Hj.
      destruct (Nat.eq_dec j m) as [->|Hne]; [exact Hlast | apply Hno; lia]. }
  split; [exact Hcount|].
  intros Hpos Hbs.
  assert (Hiff : forall j, (j <= m)%nat -> (hit j <-> whole j)).
  { intros j Hj. unfold hit, whole, tg.
    rewrite <- ge_1_reached. apply success_rate_iff; try assumption.
    apply Hlens. exact Hj. }
  assert (Hwhole :
    match st with
    | Some i =>
        exists j, i = Z.of_nat j /\ whole j /\
          forall j', (j' < j)%nat -> ~ whole j'
    | None => forall j, (j < n)%nat -> ~ whole j
    end).
  { destruct st as [i|].
    - destruct Hst as (-> & Hhit). exists m. split; [reflexivity|].
      split; [apply Hiff; [lia | exact Hhit]|].
      intros j' Hj' Hw. apply (Hno j' Hj'). apply Hiff; [lia | exact Hw].
    - destruct Hst as (Hmn & Hlast). intros j Hj Hw.
      assert (Hh : hit j) by (apply Hiff; [lia | exact Hw]).
      destruct (Nat.eq_dec j m) as [->|Hne];
        [exact (Hlast Hh) | apply (Hno j); [lia | exact Hh]]. }
  split; [exact Hwhole|].
  intros Htg Hconst.
  assert (Hat : forall j, pre_at (after j w) = labels).
  { intros j. destruct (after_frame j w) as (Hi & _ & Hc & _).
    unfold pre_at. rewrite Hi, Hc. apply Hconst. }
  assert (Hw0 : whole O).
  { unfold whole. rewrite Hat, Htg. apply Forall2_eq_refl. }
  destruct st as [i|].
  - destruct Hwhole as (j & -> & _ & Hbefore).
    destruct Hst as (Hj & _). apply Nat2Z.inj in Hj. subst j.
    destruct m as [|m'].
    + split; [reflexivity|]. rewrite Hpre. apply Hat.
    + exfalso. apply (Hbefore O); [lia | exact Hw0].
  - exfalso. apply (Hwhole O Hn). exact Hw0.
Qed.

(** C5.  One iteration replaces every element [x] of each table by
    [x - sign(g)] brought back into the factor range, for the gradient [g]
    of the cost at that element: the new value is [x - 1], [x] or [x + 1]
    for a positive, zero or negative gradient when that lies in
    [[min_factor, max_factor]], [min_factor] when it lies below and
    [max_factor] when it lies above; scaling the gradient by a positive
    factor changes nothing. *)
Theorem sign_gradient_update (w : World) (images : Tensor)
    (labels : list Z) r w' :
  step images labels w = (Ok r, w') ->
  forall k,
    let old := q_get (q_tables (attack w)) k in
    let new := q_get (q_tables (attack w')) k in
    let g := table_grad (classifier w) images labels (attack w) k in
    let lo := fst (factor_range (attack w)) in
    let hi := snd (factor_range (attack w)) in
    shape new = shape old /\
    length (data new) = length (data old) /\
    forall j x, nth_error (data old) j = Some x ->
      exists d v,
        nth_error (data new) j = Some v /\
        ((0 < g j)%Q -> d = 1%Q) /\
        ((g j == 0)%Q -> d = 0%Q) /\
        ((g j < 0)%Q -> d = (-1)%Q) /\
        (forall c, (0 < c)%Q -> torch_sign (c * g j) = torch_sign (g j)) /\
        ((lo <= x - d)%Q -> (x - d <= hi)%Q -> v = (x - d)%Q) /\
        ((x - d < lo)%Q -> (lo <= hi)%Q -> (v == lo)%Q) /\
        ((hi < x - d)%Q -> (v == hi)%Q) /\
        v = clamp lo hi (x - torch_sign (g j))%Q.
Proof.
  intros Hstep k old new g lo hi.
  rewrite step_gen in Hstep. simpl in Hstep.
  destruct (length _ =? length _)%nat; [|discriminate].
  injection Hstep as _ <-.
  assert (Hnew : new = sign_step lo hi g old).
  { unfold new, old, g, lo, hi. destruct k; reflexivity. }
  rewrite Hnew. clear Hnew.
  destruct (sign_step_shape lo hi g old) as (Hsh & Hlen).
  split; [exact Hsh|]. split; [exact Hlen|].
  intros j x Hx.
  exists (torch_sign (g j)), (clamp lo hi (x - torch_sign (g j))%Q).
  split; [rewrite sign_step_nth, Hx; reflexivity|].
  split; [apply torch_sign_pos|]. split; [apply torch_sign_zero|].
  split; [apply torch_sign_neg|].
  split; [intros c Hc; apply torch_sign_scale; exact Hc|].
  split; [intros H1 H2; apply clamp_id; assumption|].
  split.
  - intros Hlow Hle. unfold clamp.
    rewrite (Q.max_r _ _ (Qlt_le_weak _ _ Hlow)). apply Q.min_l. exact Hle.
  - split; [|reflexivity].
    intros Hup. unfold clamp. apply Q.min_r.
    apply Qle_trans with (x - torch_sign (g j))%Q;
      [apply Qlt_le_weak; exact Hup | apply Q.le_max_l].
Qed.

(** X11.  An untargeted run against a classifier that answers the true
    labels whatever it is shown never reaches the threshold: if it
    returns, it has executed the whole budget and returns the labels as
    predictions with [None], for every [batch_size]. *)
Theorem untargeted_fixed_prediction_exhausts (w : World) imgs pre st w' :
  forward w = (Ok (imgs, pre, st), w') ->
  targeted (attack w) = false ->
  (forall a, pre_of (classifier w) a (caller_images w) = caller_labels w) ->
  st = None /\ pre = caller_labels w /\
  w' = after (Z.to_nat (steps (attack w))) w.
Proof.
  intros Hrun Htg Hconst.
  destruct (forward_Ok_reached _ _ _ _ _ Hrun)
    as (_ & m & _ & _ & _ & _ & Hpre & Hw' & Hst).
  assert (Hat : pre_at (after m w) = caller_labels w).
  { destruct (after_frame m w) as (Hi & _ & Hc & _).
    unfold pre_at. rewrite Hi, Hc. apply Hconst. }
  assert (Hnot : ~ reached (attack w) (pre_at (after m w)) (caller_labels w)).
  { rewrite Hat. unfold reached, n_success. rewrite Htg, tsum_ne_refl.
    intros [(H1 & H2)|(_ & H)]; lia. }
  destruct st as [i|].
  - destruct Hst as (_ & Hhit). contradiction.
  - destruct Hst as (Hmn & _). split; [reflexivity|].
    split; [rewrite Hpre; exact Hat|]. rewrite Hw', Hmn. reflexivity.
Qed.

End Revised.

(** * The frame of [forward], on references *)

Module RefsFacts.
Import Refs.

Lemma read_write_other (h : Heap) (a b : addr) (t : Tensor) :
  a <> b -> read (write h a t) b = read h b.
Proof.
  unfold read. revert a b. induction h as [|x h IH]; intros a b Hab.
  - destruct a; reflexivity.
  - destruct a as [|a]; destruct b as [|b]; simpl; try reflexivity.
    + congruence.
    + apply IH. congruence.
Qed.

Lemma write_length (h : Heap) (a : addr) (t : Tensor) :
  length (write h a t) = length h.
Proof.
  revert a. induction h as [|x h IH]; intros a; [destruct a; reflexivity|].
  destruct a; simpl; [reflexivity | rewrite IH; reflexivity].
Qed.

Lemma read_app_old (h : Heap) (t : Tensor) (a : addr) :
  (a < length h)%nat -> read (h ++ [t]) a = read h a.
Proof. intros Ha. unfold read. apply app_nth1. exact Ha. Qed.

Section Frame.

Variable h0 : Heap.
Variable own : list addr.


Lemma ok_ret {A} (x : A) (post : A -> Prop) : post x -> ok h0 own (rret x) post.
Proof. intros Hx h Hh. split; [exact Hh | exact Hx]. Qed.

Lemma ok_bind {A C} (m : R A) (f : A -> R C) (P : A -> Prop) (Q : C -> Prop) :
  ok h0 own m P -> (forall x, P x -> ok h0 own (f x) Q) -> ok h0 own (rbind m f) Q.
Proof.
  intros Hm Hf h Hh. unfold rbind.
  destruct (Hm h Hh) as (Ha & Hp). destruct (m h) as [h1 x]. simpl in *.
  apply Hf; assumption.
Qed.

Lemma ok_new (f : Heap -> Tensor) :
  ok h0 own (new f) (fun a => (length h0 <= a)%nat).
Proof.
  intros h (Hlen & Hsame). unfold new. simpl. split; [split|].
  - rewrite length_app. simpl. lia.
  - intros a Ha Hn. rewrite read_app_old by lia. apply Hsame; assumption.
  - exact Hlen.
Qed.

Lemma ok_poke (a : addr) (f : Heap -> Tensor) :
  In a own -> ok h0 own (poke a f) (fun _ => True).
Proof.
  intros Ha h (Hlen & Hsame). unfold poke. simpl. split; [split|exact I].
  - rewrite write_length. exact Hlen.
  - intros b Hb Hn. rewrite read_write_other; [apply Hsame; assumption|].
    intros ->. contradiction.
Qed.

Lemma ok_call (f : callee) (args : list addr) :
  respects f -> Forall (safe h0 own) args -> ok h0 own (call f args) (safe h0 own).
Proof.
  intros Hf Hargs h (Hlen & Hsame). unfold call.
  destruct (Hf h args) as (Hgrow & Hkeep & Hres).
  rewrite Forall_forall in Hargs. split; [split|].
  - lia.
  - intros a Ha Hn. rewrite Hkeep; [apply Hsame; assumption | lia |].
    intros Hin. destruct (Hargs a Hin) as [Hfresh|Hown]; [lia | contradiction].
  - destruct Hres as [(Hfresh & _)|Hin]; [left; lia | apply Hargs; exact Hin].
Qed.

Lemma ok_weaken {A} (m : R A) (P Q : A -> Prop) :
  ok h0 own m P -> (forall x, P x -> Q x) -> ok h0 own m Q.
Proof.
  intros Hm HPQ h Hh. destruct (Hm h Hh) as (Ha & Hp).
  split; [exact Ha | apply HPQ; exact Hp].
Qed.

Variable E : Callees.
Hypothesis HE : all_respect E.

Ltac args_safe :=
  repeat (apply Forall_cons; [first [assumption | left; assumption]|]);
  apply Forall_nil.

Lemma ok_codec (comp table al : addr) :
  (safe h0 own) comp -> (safe h0 own) table -> (safe h0 own) al -> ok h0 own (codec_r E comp table al) (safe h0 own).
Proof.
  intros Hc Ht Ha.
  destruct HE as (H1 & H2 & H3 & H4 & H5 & H6 & _).
  unfold codec_r.
  eapply ok_bind; [apply ok_call; [exact H1 | args_safe]|].
  intros c1 Hc1.
  eapply ok_bind; [apply ok_call; [exact H2 | args_safe]|].
  intros c2 Hc2.
  eapply ok_bind; [apply ok_call; [exact H3 | args_safe]|].
  intros c3 Hc3.
  eapply ok_bind; [apply ok_call; [exact H4 | args_safe]|].
  intros c4 Hc4.
  eapply ok_bind; [apply ok_call; [exact H5 | args_safe]|].
  intros c5 Hc5.
  apply ok_call; [exact H6 | args_safe].
Qed.

Lemma ok_step (s : Self) (images_c labels_c : addr) :
  safe_self h0 own s -> In (alpha_r s) own ->
  (safe h0 own) images_c -> (safe h0 own) labels_c ->
  ok h0 own (step_r E s images_c labels_c)
     (fun r => safe_self h0 own (fst (fst (fst r))) /\
               In (alpha_r (fst (fst (fst r)))) own /\
               (length h0 <= snd (fst (fst r)))%nat /\
               (length h0 <= snd (fst r))%nat).
Proof.
  intros (Hal & Hy & Hcb & Hcr) Hown Hi Hl.
  destruct HE as (_ & _ & _ & _ & _ & _ & H7 & H8).
  unfold step_r.
  eapply ok_bind; [apply ok_codec; assumption|]. intros uy Huy.
  eapply ok_bind; [apply ok_codec; assumption|]. intros ucb Hucb.
  eapply ok_bind; [apply ok_codec; assumption|]. intros ucr Hucr.
  eapply ok_bind; [apply ok_new|]. intros rgb Hrgb.
  eapply ok_bind;
    [apply ok_call; [exact H7 | args_safe]|].
  intros outputs Hout.
  eapply ok_bind; [apply ok_new|]. intros pre Hpre.
  eapply ok_bind;
    [apply ok_call; [exact H8 | args_safe]|].
  intros cost Hcost.
  eapply ok_bind; [apply ok_poke; exact Hown|]. intros _ _.
  eapply ok_bind; [apply ok_new|]. intros ny Hny.
  eapply ok_bind; [apply ok_new|]. intros ncb Hncb.
  eapply ok_bind; [apply ok_new|]. intros ncr Hncr.
  intros h Hh. simpl. split; [exact Hh|].
  unfold Refs.safe_self. simpl.
  repeat split; try assumption; left; assumption.
Qed.

Lemma ok_loop (n : nat) :
  forall s images_c labels_c last,
    safe_self h0 own s -> In (alpha_r s) own ->
    (safe h0 own) images_c -> (safe h0 own) labels_c ->
    match last with
    | Some (rgb, pre) => (length h0 <= pre)%nat
    | None => True
    end ->
    ok h0 own (loop_r E n s images_c labels_c last) (fresh_result h0 own).
Proof.
  induction n as [|n IH]; intros s images_c labels_c last Hs Hown Hi Hl Hlast.
  - cbn [loop_r]. destruct last as [[rgb pre]|].
    + eapply ok_bind; [apply ok_new|]. intros q Hq.
      apply ok_ret. split; [exact Hs|]. simpl. split; assumption.
    + apply ok_ret. split; [exact Hs | exact I].
  - cbn [loop_r].
    eapply ok_bind; [apply ok_step; assumption|].
    intros [[[s' rgb] pre] stop] (Hs' & Hown' & Hrgb & Hpre). simpl in *.
    destruct stop.
    + eapply ok_bind; [apply ok_new|]. intros q Hq.
      apply ok_ret. split; [exact Hs'|]. simpl. split; assumption.
    + apply IH; assumption.
Qed.

End Frame.

Lemma fold_write_length (args : list addr) :
  forall h, length (fold_left (fun h a => write h a wiped) args h) = length h.
Proof.
  induction args as [|a args IH]; intros h; simpl; [reflexivity|].
  rewrite IH. apply write_length.
Qed.

Lemma fold_write_other (args : list addr) (b : addr) :
  ~ In b args ->
  forall h, read (fold_left (fun h a => write h a wiped) args h) b = read h b.
Proof.
  induction args as [|a args IH]; intros Hb h; simpl; [reflexivity|].
  rewrite IH by (intros Hin; apply Hb; right; exact Hin).
  apply read_write_other. intros ->. apply Hb. left. reflexivity.
Qed.

Lemma clobber_respects : respects clobber.
Proof.
  intros h args. unfold clobber. simpl.
  rewrite length_app, fold_write_length. simpl. split; [lia|]. split.
  - intros a Ha Hn. rewrite read_app_old by (rewrite fold_write_length; exact Ha).
    apply fold_write_other. exact Hn.
  - left. lia.
Qed.

Lemma clobbering_respects : all_respect clobbering.
Proof. unfold all_respect, clobbering. simpl. repeat split; apply clobber_respects. Qed.

(** C9.  With the foreign code free to overwrite every tensor it is
    handed, a run of [forward] leaves every tensor that existed before the
    call and is not the attack object's alpha or one of its three tables
    as it was: the caller's images and labels (only their clones are
    passed on), the classifier's weights and anything else.  The image
    batch and the predictions it returns are tensors allocated during the
    run, not the caller's; alpha stays the same tensor, written in
    place. *)
Theorem forward_r_frame (E : Callees) (n : nat) (s : Self)
    (images labels : addr) (h : Heap) :
  all_respect E ->
  (images < length h)%nat -> (labels < length h)%nat ->
  ~ In images (owned s) -> ~ In labels (owned s) ->
  let h' := fst (forward_r E n s images labels h) in
  let res := snd (forward_r E n s images labels h) in
  read h' images = read h images /\
  read h' labels = read h labels /\
  (forall a, (a < length h)%nat -> ~ In a (owned s) -> read h' a = read h a) /\
  match snd res with
  | Some (q, pre) =>
      (length h <= q)%nat /\ (length h <= pre)%nat /\
      q <> images /\ q <> labels
  | None => True
  end.
Proof.
  intros HE Hi Hl Hni Hnl h' res.
  assert (Hok : ok h (owned s) (forward_r E n s images labels)
                   (fresh_result h (owned s))).
  { unfold forward_r.
    eapply ok_bind; [apply ok_new|]. intros images_c Hic.
    eapply ok_bind; [apply ok_new|]. intros labels_c Hlc.
    apply ok_loop; try exact HE; try exact I.
    - unfold safe_self, safe, owned. simpl. repeat split; right; auto.
    - unfold owned. simpl. auto.
    - left. exact Hic.
    - left. exact Hlc. }
  assert (Hh : agree h (owned s) h).
  { split; [lia|]. intros a _ _. reflexivity. }
  destruct (Hok h Hh) as ((_ & Hsame) & (_ & Hres)).
  fold h' in Hsame. fold res in Hres.
  split; [apply Hsame; assumption|]. split; [apply Hsame; assumption|].
  split; [exact Hsame|].
  destruct (snd res) as [[q pre]|]; [|exact I].
  destruct Hres as (Hq & Hpre). repeat split; try assumption; lia.
Qed.

End RefsFacts.

(** ** The revised properties on concrete runs *)

(** The foreign code wipes the clone of the images (cell 7) and the first
    table (cell 4); the caller's images (cell 0) and the classifier's
    weights (cell 2) stay. *)
Lemma forward_r_frame_witness :
  let h' := fst (Refs.forward_r Refs.clobbering 2 Refs.self7 0%nat 1%nat Refs.heap7) in
  Refs.all_respect Refs.clobbering /\
  Refs.read h' 0%nat = Refs.cell 10 /\
  Refs.read h' 2%nat = Refs.cell 12 /\
  Refs.read h' 4%nat = Refs.wiped /\
  Refs.read h' 7%nat = Refs.wiped.
Proof.
  intros h'.
  assert (Hni : forall a, (a < 3)%nat -> ~ In a (Refs.owned Refs.self7)).
  { intros a Ha. simpl. lia. }
  assert (H3 : (3 <= length Refs.heap7)%nat) by (simpl; lia).
  destruct (RefsFacts.forward_r_frame Refs.clobbering 2 Refs.self7 0%nat 1%nat Refs.heap7
              RefsFacts.clobbering_respects) as (H0 & _ & Hall & _).
  - simpl. lia.
  - simpl. lia.
  - apply Hni. lia.
  - apply Hni. lia.
  - split; [exact RefsFacts.clobbering_respects|].
    split; [exact H0|]. split.
    + apply Hall; [simpl; lia | apply Hni; lia].
    + split; vm_compute; reflexivity.
Defined.

(** With [batch_size = 1] and two images the run returns at step 0 on
    the one image that reached its target. *)
Lemma stop_before_whole_batch : ~ stops_only_on_whole_batch Toy.pair_world.
Proof.
  intros H.
  assert (Hrun : forward Toy.pair_world
    = (Ok (torch_clamp (rgb_at Toy.pair_world) 0 255, [42; 7], Some 0),
       after 1 Toy.pair_world)) by (vm_compute; reflexivity).
  specialize (H _ _ _ _ Hrun). simpl in H.
  inversion H as [|p l ps ls _ Htail]; subst.
  inversion Htail as [|p l ps ls Hneq _]; subst. discriminate.
Qed.

Lemma early_stop_iff_count_reaches_batch_size_witness :
  forward Toy.pair_world
    = (Ok (torch_clamp (rgb_at Toy.pair_world) 0 255, [42; 7], Some 0),
       after 1 Toy.pair_world) /\
  n_success (attack Toy.pair_world) [42; 7] [42; 8] = 1 /\
  reached (attack Toy.pair_world) (pre_at (after 0 Toy.pair_world)) [42; 8].
Proof.
  assert (Hrun : forward Toy.pair_world
    = (Ok (torch_clamp (rgb_at Toy.pair_world) 0 255, [42; 7], Some 0),
       after 1 Toy.pair_world)) by (vm_compute; reflexivity).
  split; [exact Hrun|]. split; [reflexivity|].
  destruct (proj1 (early_stop_iff_count_reaches_batch_size _ _ _ _ _ Hrun))
    as (j & Hj & _ & _ & Hhit & _).
  apply (Nat2Z.inj 0 j) in Hj. subst j. exact Hhit.
Defined.

(** The classifier answers 300 on the batch [Toy.world 5 true 0] returns,
    not the returned 0. *)
Lemma predictions_not_on_returned_batch :
  ~ predictions_on_returned_batch (Toy.world 5 true 0).
Proof.
  intros H.
  assert (Hrun : forward (Toy.world 5 true 0)
    = (Ok ({| shape := [1; 1; 1; 1]%nat; data := [0; 0; 0]%Q |}, [0], Some 2),
       after 3 (Toy.world 5 true 0))) by (vm_compute; reflexivity).
  pose proof (H _ _ _ _ Hrun) as H1.
  change ([0] = Toy.first_pixel
                  {| shape := [1; 1; 1; 1]%nat; data := [0; 0; 0]%Q |}) in H1.
  vm_compute in H1. discriminate H1.
Qed.

Lemma forward_returns_triple_witness :
  forward (Toy.world 5 true 0)
    = (Ok ({| shape := [1; 1; 1; 1]%nat; data := [0; 0; 0]%Q |}, [0], Some 2),
       after 3 (Toy.world 5 true 0)) /\
  reached (attack (Toy.world 5 true 0))
          (pre_at (after 2 (Toy.world 5 true 0))) [0] /\
  exists imgs pre,
    forward (Toy.world 1 true 0)
    = (Ok (imgs, pre, None), after 1 (Toy.world 1 true 0)).
Proof.
  assert (Hrun : forward (Toy.world 5 true 0)
    = (Ok ({| shape := [1; 1; 1; 1]%nat; data := [0; 0; 0]%Q |}, [0], Some 2),
       after 3 (Toy.world 5 true 0))) by (vm_compute; reflexivity).
  split; [exact Hrun|]. split.
  - destruct (proj1 (forward_returns_triple (Toy.world 5 true 0)) _ _ _ _ Hrun)
      as (rgb & _ & _ & j & Hj & _ & Hhit & _).
    apply (Nat2Z.inj 2 j) in Hj. subst j. exact Hhit.
  - apply (proj2 (forward_returns_triple (Toy.world 1 true 0))).
    + vm_compute. lia.
    + intros j Hj. assert (j = O) by (vm_compute in Hj; lia). subst j. split.
      * exists (rgb_at (Toy.world 1 true 0), pre_at (Toy.world 1 true 0),
                success_rate (attack (Toy.world 1 true 0))
                             (pre_at (Toy.world 1 true 0)) [0]).
        vm_compute. reflexivity.
      * intros [(_ & Hc)|(Hb & _)].
        -- vm_compute in Hc. apply Hc. reflexivity.
        -- vm_compute in Hb. discriminate.
Defined.

(** Step 0 of [Toy.world 5 true 0] moves the tables from 7 to 6; the
    step taken after two iterations finds them at 5 and leaves them
    there. *)
Lemma sign_gradient_update_witness :
  step Toy.image [0] (after 2 (Toy.world 5 true 0))
    = (Ok (rgb_at (after 2 (Toy.world 5 true 0)),
           pre_at (after 2 (Toy.world 5 true 0)),
           success_rate (attack (after 2 (Toy.world 5 true 0)))
                        (pre_at (after 2 (Toy.world 5 true 0))) [0]),
       after 3 (Toy.world 5 true 0)) /\
  nth_error (data (q_get (q_tables (attack (after 2 (Toy.world 5 true 0)))) cb)) 0
    = Some 5%Q /\
  exists v,
    nth_error (data (q_get (q_tables (attack (after 3 (Toy.world 5 true 0)))) cb)) 0
      = Some v /\ (v == 5)%Q.
Proof.
  assert (H : step Toy.image [0] (after 2 (Toy.world 5 true 0))
    = (Ok (rgb_at (after 2 (Toy.world 5 true 0)),
           pre_at (after 2 (Toy.world 5 true 0)),
           success_rate (attack (after 2 (Toy.world 5 true 0)))
                        (pre_at (after 2 (Toy.world 5 true 0))) [0]),
       after 3 (Toy.world 5 true 0))) by (vm_compute; reflexivity).
  assert (Hx : nth_error
    (data (q_get (q_tables (attack (after 2 (Toy.world 5 true 0)))) cb)) 0
    = Some 5%Q) by (vm_compute; reflexivity).
  split; [exact H|]. split; [exact Hx|].
  destruct (sign_gradient_update _ _ _ _ _ H cb) as (_ & _ & Hel).
  destruct (Hel O 5%Q Hx)
    as (d & v & Hv & Hpos & _ & _ & _ & _ & Hbelow & _).
  exists v. split; [exact Hv|].
  assert (Hd : d = 1%Q) by (apply Hpos; reflexivity).
  subst d. apply Hbelow; vm_compute; reflexivity || discriminate.
Defined.

Lemma untargeted_fixed_prediction_exhausts_witness :
  forward (Toy.constant_world 3 false 42)
    = (Ok (torch_clamp (rgb_at (after 2 (Toy.constant_world 3 false 42))) 0 255,
           [42], None),
       after 3 (Toy.constant_world 3 false 42)) /\
  (None : option Z) = None /\ [42] = caller_labels (Toy.constant_world 3 false 42).
Proof.
  assert (Hrun : forward (Toy.constant_world 3 false 42)
    = (Ok (torch_clamp (rgb_at (after 2 (Toy.constant_world 3 false 42))) 0 255,
           [42], None),
       after 3 (Toy.constant_world 3 false 42))) by (vm_compute; reflexivity).
  split; [exact Hrun|].
  destruct (untargeted_fixed_prediction_exhausts _ _ _ _ _ Hrun eq_refl
              (fun a => eq_refl)) as (Hst & Hpre & _).
  split; [exact Hst | exact Hpre].
Defined.
